(** * gowebp: the conversion pipeline and the worker pool of [main.go]

    A shallow embedding of [pool.execute], [mustGetFileSize], [newJob],
    [job.waitForResult] and of the worker loop of [pool.worker] /
    [pool.stop] / [pool.wait], with the file system, the path functions of
    [path/filepath] and the external encoder made explicit. *)

From Stdlib Require Import ZArith String Ascii List Floats Uint63 Lia Bool.
From stdpp Require Import base option gmap strings list.

Local Open Scope string_scope.
Local Open Scope Z_scope.

(** ** Go values used by the pipeline *)

(** Go's [error] values that reach the pipeline.  [PathError] is
    [*os.PathError] (operation, path, cause); [GetwdError] is what
    [filepath.Abs] reports when the working directory cannot be read;
    [ExitError] is what [webpbin]'s [Run] reports. *)
Inductive error :=
  | PathError (op path cause : string)
  | GetwdError (cause : string)
  | ExitError (msg : string).

(** What a goroutine can panic with here: the [error] handed to [panic] by
    [mustGetFileSize], or one of the runtime's own panics. *)
Inductive panic_value :=
  | PanicError (e : error)
  | PanicSliceBounds (hi : Z)
  | PanicSendOnClosed
  | PanicCloseOfClosed.

(** [type webpJobResult struct]; [err = None] is Go's [nil]. *)
Record webpJobResult := {
  err : option error;
  compression : float;
  exists_ : bool;
  outputFile : string;
}.

(** [&webpJobResult{}]: every field at its zero value. *)
Definition zero_result : webpJobResult :=
  {| err := None; compression := 0%float; exists_ := false; outputFile := "" |}.

(** The operations a job's result channel has seen, oldest first. *)
Inductive chan_op :=
  | ChSend (r : webpJobResult)
  | ChClose.

Definition chan := list chan_op.

Definition chan_closed (c : chan) : bool :=
  existsb (fun o => match o with ChClose => true | ChSend _ => false end) c.

(** [type job struct]. [res] is [None] while the pointer is nil. *)
Record job := {
  input : string;
  quality : Z;
  res : option webpJobResult;
  resCh : chan;
}.

(** [func newJob(input string, quality uint) *job] *)
Definition newJob (input : string) (quality : Z) : job :=
  {| input := input; quality := quality; res := None; resCh := [] |}.

(** The package-level flags read by [execute]. *)
Record flags := {
  replace : bool;
  dryRun : bool;
  prependToName : string;
  appendToName : string;
  minFileSize : Z;
}.

(** ** The outside world *)

(** The file system as the pipeline sees it: the size of the file at each
    path, and the paths whose removal the system refuses. *)
Record world := {
  files : gmap string Z;
  undeletable : gset string;
}.

(** [os.Stat(file)], of which the pipeline reads the size or the error. *)
Definition os_Stat (w : world) (file : string) : Z + error :=
  match files w !! file with
  | Some sz => inl sz
  | None => inr (PathError "stat" file "no such file or directory")
  end.

(** [os.Remove(name)] *)
Definition os_Remove (w : world) (name : string) : world * option error :=
  match files w !! name with
  | None => (w, Some (PathError "remove" name "no such file or directory"))
  | Some _ =>
      if decide (name ∈ undeletable w)
      then (w, Some (PathError "remove" name "operation not permitted"))
      else ({| files := delete name (files w); undeletable := undeletable w |}, None)
  end.

(** The functions of [path/filepath] and the encoder of [go-webpbin] that
    [execute] calls.  They live outside the repository, so the pipeline is
    parametrised by them.  [cwebp_Run q i o w] is
    [NewCWebP().Quality(q).InputFile(i).OutputFile(o).Run()] started in
    world [w]. *)
Record platform := {
  filepath_Abs : string -> string * option error;
  filepath_Ext : string -> string;
  filepath_Base : string -> string;
  filepath_Dir : string -> string;
  filepath_Join : string -> string -> string;
  cwebp_Run : Z -> string -> string -> world -> world * option error;
}.

(** What a job leaves behind besides its result: the calls that touch the
    file system or the encoder, the goroutine it spawns, and its log lines. *)
Inductive event :=
  | EvGoWaitForResult
  | EvStat (file : string)
  | EvEncode (q : Z) (inp out : string)
  | EvRemove (file : string)
  | LogAlreadyExists (inp : string)
  | LogTooSmall (inp : string) (size min : Z)
  | LogDryRun (inp out : string)
  | LogEncodeFailed (e : error)
  | LogBigger (out inp : string)
  | LogDone (inp : string) (insize : Z) (out : string) (outsize : Z) (ratio : float).

(** An event that changes the file system: only the encoder and
    [os.Remove] can. *)
Definition mutates (e : event) : bool :=
  match e with
  | EvEncode _ _ _ | EvRemove _ => true
  | _ => false
  end.

(** ** Numbers *)

(** [datasize.ByteSize(n)] for an [int64] [n]: the conversion to [uint64]. *)
Definition ByteSize (n : Z) : Z := n mod 2 ^ 64.

(** The sizes [FileInfo.Size()] reports for a file: a non-negative [int64]. *)
Definition file_size (n : Z) : Prop := 0 <= n < 2 ^ 63.

(** [float64(b)] for a [uint64] [b]: the nearest binary64, ties to even.
    Below [2^63] this is the primitive conversion; above, the low bit is
    folded into the halved value so that the rounding is unchanged. *)
Definition float64_of_uint64 (b : Z) : float :=
  if b <? 2 ^ 63 then PrimFloat.of_uint63 (Uint63.of_Z b)
  else (PrimFloat.of_uint63 (Uint63.of_Z (Z.lor (Z.shiftr b 1) (Z.land b 1))) * 2)%float.

(** [(1 - (float64(fSizeOutput) / float64(fSizeTarget))) * 100] *)
Definition compression_ratio (fSizeOutput fSizeTarget : Z) : float :=
  ((1 - float64_of_uint64 fSizeOutput / float64_of_uint64 fSizeTarget) * 100)%float.

(** ** A monad for function bodies: state, early [return], [panic] *)

Record exec_state := {
  st_world : world;
  st_j : job;
  st_r : webpJobResult;
  st_events : list event;
}.

Inductive ctl (A : Type) :=
  | Next (a : A)
  | Return
  | Panic (v : panic_value).
Arguments Next {A} a.
Arguments Return {A}.
Arguments Panic {A} v.

Definition M (A : Type) : Type := exec_state -> ctl A * exec_state.

#[global] Instance M_ret : MRet M := fun A a s => (Next a, s).
#[global] Instance M_bind : MBind M := fun A B f m s =>
  match m s with
  | (Next a, s') => f a s'
  | (Return, s') => (Return, s')
  | (Panic v, s') => (Panic v, s')
  end.

Definition return_ {A} : M A := fun s => (Return, s).
Definition panic {A} (v : panic_value) : M A := fun s => (Panic v, s).
Definition get_j : M job := fun s => (Next (st_j s), s).
Definition get_r : M webpJobResult := fun s => (Next (st_r s), s).
Definition get_world : M world := fun s => (Next (st_world s), s).
Definition put_world (w : world) : M unit := fun s =>
  (Next tt, {| st_world := w; st_j := st_j s; st_r := st_r s; st_events := st_events s |}).
Definition emit (e : event) : M unit := fun s =>
  (Next tt, {| st_world := st_world s; st_j := st_j s; st_r := st_r s;
               st_events := (st_events s ++ [e])%list |}).
Definition modify_r (f : webpJobResult -> webpJobResult) : M unit := fun s =>
  (Next tt, {| st_world := st_world s; st_j := st_j s; st_r := f (st_r s);
               st_events := st_events s |}).
Definition modify_j (f : job -> job) : M unit := fun s =>
  (Next tt, {| st_world := st_world s; st_j := f (st_j s); st_r := st_r s;
               st_events := st_events s |}).

Definition set_err (e : option error) (r : webpJobResult) : webpJobResult :=
  {| err := e; compression := compression r; exists_ := exists_ r; outputFile := outputFile r |}.
Definition set_compression (c : float) (r : webpJobResult) : webpJobResult :=
  {| err := err r; compression := c; exists_ := exists_ r; outputFile := outputFile r |}.
Definition set_exists (b : bool) (r : webpJobResult) : webpJobResult :=
  {| err := err r; compression := compression r; exists_ := b; outputFile := outputFile r |}.
Definition set_outputFile (o : string) (r : webpJobResult) : webpJobResult :=
  {| err := err r; compression := compression r; exists_ := exists_ r; outputFile := o |}.
Definition set_input (i : string) (j : job) : job :=
  {| input := i; quality := quality j; res := res j; resCh := resCh j |}.
Definition set_res (r : webpJobResult) (j : job) : job :=
  {| input := input j; quality := quality j; res := Some r; resCh := resCh j |}.
Definition set_resCh (c : chan) (j : job) : job :=
  {| input := input j; quality := quality j; res := res j; resCh := c |}.

(** [os.Stat], [os.Remove] and the encoder as actions on the world. *)
Definition stat (file : string) : M (Z + error) :=
  emit (EvStat file);; w ← get_world; mret (os_Stat w file).

Definition remove (file : string) : M (option error) :=
  emit (EvRemove file);;
  w ← get_world;
  let '(w', e) := os_Remove w file in
  put_world w';; mret e.

Definition run_cwebp (P : platform) (q : Z) (inp out : string) : M (option error) :=
  emit (EvEncode q inp out);;
  w ← get_world;
  let '(w', e) := cwebp_Run P q inp out w in
  put_world w';; mret e.

(** [s[:hi]] on a string, with the runtime's bounds check. *)
Definition slice_to (s : string) (hi : Z) : M string :=
  if decide (0 <= hi <= Z.of_nat (String.length s))
  then mret (substring 0 (Z.to_nat hi) s)
  else panic (PanicSliceBounds hi).

(** ** The source functions *)

(** [func mustGetFileSize(file string) int64] *)
Definition mustGetFileSize (file : string) : M Z :=
  fi ← stat file;
  match fi with
  | inr e => panic (PanicError e)
  | inl size => mret size
  end.

Definition not_nil (e : option error) : bool :=
  match e with Some _ => true | None => false end.

Definition when (b : bool) (m : M unit) : M unit :=
  if b then m else mret tt.

(** [func (j *job) waitForResult() *webpJobResult], from the moment its
    receive [<-j.resCh] gets the value [r]: [j.res = r]. *)
Definition waitForResult (r : webpJobResult) (j : job) : job := set_res r j.

(** The deferred closure of [execute]: [j.resCh <- r; close(j.resCh)].
    The channel is unbuffered; the value sent is taken by the goroutine
    that [execute] started on [j.waitForResult]. *)
Definition deliver : M unit :=
  j ← get_j;
  r ← get_r;
  (if chan_closed (resCh j) then panic PanicSendOnClosed
   else modify_j (set_resCh (resCh j ++ [ChSend r])%list);; modify_j (waitForResult r));;
  j ← get_j;
  if chan_closed (resCh j) then panic PanicCloseOfClosed
  else modify_j (set_resCh (resCh j ++ [ChClose])%list).

(** [defer]: the deferred call runs when the body returns and when it
    panics; a panic of the body goes on afterwards, unless the deferred
    call panics itself. *)
Definition with_defer (body deferred : M unit) : M unit := fun s =>
  match body s with
  | (Panic v, s') =>
      match deferred s' with
      | (Panic v', s'') => (Panic v', s'')
      | (_, s'') => (Panic v, s'')
      end
  | (_, s') =>
      match deferred s' with
      | (Panic v', s'') => (Panic v', s'')
      | (_, s'') => (Next tt, s'')
      end
  end.

(** The first statements of [execute] after its [defer], up to the
    assignment of [r.outputFile]: path normalisation and output path
    derivation. *)
Definition derive_output_path (P : platform) (cfg : flags) : M unit :=
  (* get the absolute path *)
  j ← get_j;
  let '(abs, e) := filepath_Abs P (input j) in
  modify_j (set_input abs);;
  modify_r (set_err e);;
  r ← get_r;
  when (not_nil (err r)) return_;;
  j ← get_j;
  (* get the target's extension *)
  let targetExt := filepath_Ext P (input j) in
  let base := filepath_Base P (input j) in
  let path := filepath_Dir P (input j) in
  (* output is the old filepath with new webp extension and prepend and
     append strings *)
  stem ← slice_to base (Z.of_nat (String.length base) - Z.of_nat (String.length targetExt));
  modify_r (set_outputFile
    (filepath_Join P path (prependToName cfg ++ stem ++ appendToName cfg ++ ".webp"))).

(** The rest of [execute]: the gates, the encoder call and the check of
    the output's size. *)
Definition convert (P : platform) (cfg : flags) : M unit :=
  j ← get_j;
  r ← get_r;
  (* check if file already exists *)
  when (negb (replace cfg))
    (fi ← stat (outputFile r);
     match fi with
     | inl _ =>
         modify_r (set_exists true);;
         emit (LogAlreadyExists (input j));;
         return_
     | inr _ => mret tt
     end);;
  (* get the size of the original file *)
  size ← mustGetFileSize (input j);
  let fSizeTarget := ByteSize size in
  when (fSizeTarget <? minFileSize cfg)
    (emit (LogTooSmall (input j) fSizeTarget (minFileSize cfg));;
     return_);;
  when (dryRun cfg)
    (emit (LogDryRun (input j) (outputFile r));;
     return_);;
  e ← run_cwebp P (quality j) (input j) (outputFile r);
  modify_r (set_err e);;
  r ← get_r;
  when (not_nil (err r)) return_;;
  (* get the file size of the new file *)
  size' ← mustGetFileSize (outputFile r);
  let fSizeOutput := ByteSize size' in
  (* calculate the compression percentage *)
  modify_r (set_compression (compression_ratio fSizeOutput fSizeTarget));;
  r ← get_r;
  match err r with
  | Some e => emit (LogEncodeFailed e)
  | None =>
      when (fSizeTarget <? fSizeOutput)
        (emit (LogBigger (outputFile r) (input j));;
         e ← remove (outputFile r);
         modify_r (set_err e);;
         r ← get_r;
         when (not_nil (err r)) return_);;
      r ← get_r;
      emit (LogDone (input j) fSizeTarget (outputFile r) fSizeOutput (compression r))
  end;;
  return_.

(** The statements of [execute] after its [defer]. *)
Definition execute_body (P : platform) (cfg : flags) : M unit :=
  derive_output_path P cfg;;
  convert P cfg.

(** [func (p *pool) execute(j *job)], run on job [j] in world [w]: how it
    ends, and the state it leaves. *)
Definition execute (P : platform) (cfg : flags) (j : job) (w : world) : ctl unit * exec_state :=
  (emit EvGoWaitForResult;;
   with_defer (execute_body P cfg) deliver)
    {| st_world := w; st_j := j; st_r := zero_result; st_events := [] |}.

(** What the caller of [execute] observes. *)
Definition outcome (x : ctl unit * exec_state) : ctl unit := fst x.
Definition result (x : ctl unit * exec_state) : webpJobResult := st_r (snd x).
Definition world_after (x : ctl unit * exec_state) : world := st_world (snd x).
Definition job_after (x : ctl unit * exec_state) : job := st_j (snd x).
Definition events (x : ctl unit * exec_state) : list event := st_events (snd x).

(** ** A concrete platform to run the pipeline on

    Clean absolute Unix paths, a process whose working directory is [cwd]
    (or gone, when [None]), and an encoder that writes
    [size * quality / 100] bytes. *)
Module Sample.

Fixpoint last_index (c : ascii) (s : string) (i : nat) : option nat :=
  match s with
  | EmptyString => None
  | String a rest =>
      match last_index c rest (S i) with
      | Some k => Some k
      | None => if Ascii.eqb a c then Some i else None
      end
  end.

Definition Base (p : string) : string :=
  match last_index "/" p 0 with
  | Some i => substring (S i) (String.length p - S i) p
  | None => p
  end.

Definition Dir (p : string) : string :=
  match last_index "/" p 0 with
  | Some O => "/"
  | Some i => substring 0 i p
  | None => "."
  end.

Definition Ext (p : string) : string :=
  let b := Base p in
  match last_index "." b 0 with
  | Some i => substring i (String.length b - i) b
  | None => ""
  end.

Definition Join (d f : string) : string :=
  if String.eqb d "/" then "/" ++ f else d ++ "/" ++ f.

Definition Abs (cwd : option string) (p : string) : string * option error :=
  match p with
  | String "/" _ => (p, None)
  | _ =>
      match cwd with
      | Some d => (Join d p, None)
      | None => ("", Some (GetwdError "getwd: no such file or directory"))
      end
  end.

Definition cwebp (q : Z) (inp out : string) (w : world) : world * option error :=
  match files w !! inp with
  | Some sz =>
      ({| files := <[out := sz * q / 100]> (files w); undeletable := undeletable w |}, None)
  | None => (w, Some (ExitError "exit status 1"))
  end.

(** An encoder whose output is [pad] bytes longer than its input. *)
Definition cwebp_padding (pad : Z) (q : Z) (inp out : string) (w : world)
    : world * option error :=
  match files w !! inp with
  | Some sz =>
      ({| files := <[out := sz + pad]> (files w); undeletable := undeletable w |}, None)
  | None => (w, Some (ExitError "exit status 1"))
  end.

Definition unix_padding (cwd : option string) (pad : Z) : platform :=
  {| filepath_Abs := Abs cwd; filepath_Ext := Ext; filepath_Base := Base;
     filepath_Dir := Dir; filepath_Join := Join; cwebp_Run := cwebp_padding pad |}.

Definition unix (cwd : option string) : platform :=
  {| filepath_Abs := Abs cwd; filepath_Ext := Ext; filepath_Base := Base;
     filepath_Dir := Dir; filepath_Join := Join; cwebp_Run := cwebp |}.

Definition defaults : flags :=
  {| replace := false; dryRun := false; prependToName := ""; appendToName := "";
     minFileSize := 10240 |}.

Definition disk (l : list (string * Z)) : world :=
  {| files := list_to_map l; undeletable := ∅ |}.

End Sample.

(** ** The output path the specification describes *)

(** directory / prefix + base name without extension + suffix + ".webp",
    for the absolute input path [a]. *)
Definition spec_output_path (P : platform) (cfg : flags) (a : string) : string :=
  let base := filepath_Base P a in
  let stem := substring 0 (String.length base - String.length (filepath_Ext P a)) base in
  filepath_Join P (filepath_Dir P a)
    (prependToName cfg ++ stem ++ appendToName cfg ++ ".webp").

(** The extension that [filepath.Ext] returns is part of what
    [filepath.Base] returns, so the slice [base[:len(base)-len(ext)]] is in
    range. *)
Definition ext_within_base (P : platform) (a : string) : Prop :=
  (String.length (filepath_Ext P a) <= String.length (filepath_Base P a))%nat.


#[global] Arguments ByteSize : simpl never.
#[global] Arguments compression_ratio : simpl never.
#[global] Arguments spec_output_path : simpl never.
#[global] Arguments slice_to : simpl never.

(** ** The paths through [execute] *)

Section Paths.

Variables (P : platform) (cfg : flags) (j : job) (w : world).

(** The job as [execute] leaves it: [input] made absolute, the result
    received into [res], and the channel written once and closed. *)
Definition delivered (a : string) (r : webpJobResult) : job :=
  {| input := a; quality := quality j; res := Some r; resCh := [ChSend r; ChClose] |}.

Definition final (c : ctl unit) (w' : world) (a : string) (r : webpJobResult)
    (evs : list event) : ctl unit * exec_state :=
  (c, {| st_world := w'; st_j := delivered a r; st_r := r; st_events := evs |}).

Definition mk_result (e : option error) (c : float) (x : bool) (o : string) : webpJobResult :=
  {| err := e; compression := c; exists_ := x; outputFile := o |}.

(** The existence gate lets the job through: [replace] is set, or
    [os.Stat] of the output path fails. *)
Definition gate_open (a : string) : Prop :=
  replace cfg = true \/ files w !! spec_output_path P cfg a = None.

(** The calls made up to and including the size check of the input. *)
Definition sizing_events (a : string) : list event :=
  (EvGoWaitForResult ::
     (if replace cfg then [] else [EvStat (spec_output_path P cfg a)]) ++ [EvStat a])%list.

(** The job gets past path derivation and the existence gate, and the
    input file exists with size [si]. *)
Definition reaches_sizing (a : string) (si : Z) : Prop :=
  filepath_Abs P (input j) = (a, None) /\ ext_within_base P a /\
  gate_open a /\ files w !! a = Some si.

(** The job gets to the encoder call. *)
Definition reaches_encode (a : string) (si : Z) : Prop :=
  reaches_sizing a si /\ minFileSize cfg <= ByteSize si /\ dryRun cfg = false.

(** The encoder succeeded, leaving world [w1] with an output file of size
    [so]. *)
Definition encoded (a : string) (si : Z) (w1 : world) (so : Z) : Prop :=
  reaches_encode a si /\
  cwebp_Run P (quality j) a (spec_output_path P cfg a) w = (w1, None) /\
  files w1 !! spec_output_path P cfg a = Some so.

Definition encode_events (a : string) : list event :=
  (sizing_events a ++ [EvEncode (quality j) a (spec_output_path P cfg a)])%list.

Inductive path : ctl unit * exec_state -> Prop :=
| path_abs_error a0 e :
    filepath_Abs P (input j) = (a0, Some e) ->
    path (final (Next tt) w a0 (mk_result (Some e) 0 false "") [EvGoWaitForResult])
| path_slice_panic a :
    filepath_Abs P (input j) = (a, None) ->
    ~ ext_within_base P a ->
    path (final
            (Panic (PanicSliceBounds
               (Z.of_nat (String.length (filepath_Base P a))
                - Z.of_nat (String.length (filepath_Ext P a)))))
            w a (mk_result None 0 false "") [EvGoWaitForResult])
| path_already_exists a sz :
    filepath_Abs P (input j) = (a, None) ->
    ext_within_base P a ->
    replace cfg = false ->
    files w !! spec_output_path P cfg a = Some sz ->
    path (final (Next tt) w a (mk_result None 0 true (spec_output_path P cfg a))
            [EvGoWaitForResult; EvStat (spec_output_path P cfg a); LogAlreadyExists a])
| path_input_stat_panic a :
    filepath_Abs P (input j) = (a, None) ->
    ext_within_base P a ->
    gate_open a ->
    files w !! a = None ->
    path (final (Panic (PanicError (PathError "stat" a "no such file or directory")))
            w a (mk_result None 0 false (spec_output_path P cfg a)) (sizing_events a))
| path_too_small a si :
    reaches_sizing a si ->
    ByteSize si < minFileSize cfg ->
    path (final (Next tt) w a (mk_result None 0 false (spec_output_path P cfg a))
            (sizing_events a ++ [LogTooSmall a (ByteSize si) (minFileSize cfg)]))
| path_dry_run a si :
    reaches_sizing a si ->
    minFileSize cfg <= ByteSize si ->
    dryRun cfg = true ->
    path (final (Next tt) w a (mk_result None 0 false (spec_output_path P cfg a))
            (sizing_events a ++ [LogDryRun a (spec_output_path P cfg a)]))
| path_encode_error a si w1 e :
    reaches_encode a si ->
    cwebp_Run P (quality j) a (spec_output_path P cfg a) w = (w1, Some e) ->
    path (final (Next tt) w1 a (mk_result (Some e) 0 false (spec_output_path P cfg a))
            (encode_events a))
| path_output_stat_panic a si w1 :
    reaches_encode a si ->
    cwebp_Run P (quality j) a (spec_output_path P cfg a) w = (w1, None) ->
    files w1 !! spec_output_path P cfg a = None ->
    path (final
            (Panic (PanicError
               (PathError "stat" (spec_output_path P cfg a) "no such file or directory")))
            w1 a (mk_result None 0 false (spec_output_path P cfg a))
            (encode_events a ++ [EvStat (spec_output_path P cfg a)]))
| path_compressed a si w1 so :
    encoded a si w1 so ->
    ByteSize so <= ByteSize si ->
    path (final (Next tt) w1 a
            (mk_result None (compression_ratio (ByteSize so) (ByteSize si)) false
               (spec_output_path P cfg a))
            (encode_events a ++
             [EvStat (spec_output_path P cfg a);
              LogDone a (ByteSize si) (spec_output_path P cfg a) (ByteSize so)
                (compression_ratio (ByteSize so) (ByteSize si))]))
| path_bigger_removed a si w1 so :
    encoded a si w1 so ->
    ByteSize si < ByteSize so ->
    spec_output_path P cfg a ∉ undeletable w1 ->
    path (final (Next tt)
            {| files := delete (spec_output_path P cfg a) (files w1);
               undeletable := undeletable w1 |}
            a
            (mk_result None (compression_ratio (ByteSize so) (ByteSize si)) false
               (spec_output_path P cfg a))
            (encode_events a ++
             [EvStat (spec_output_path P cfg a);
              LogBigger (spec_output_path P cfg a) a;
              EvRemove (spec_output_path P cfg a);
              LogDone a (ByteSize si) (spec_output_path P cfg a) (ByteSize so)
                (compression_ratio (ByteSize so) (ByteSize si))]))
| path_bigger_remove_error a si w1 so :
    encoded a si w1 so ->
    ByteSize si < ByteSize so ->
    spec_output_path P cfg a ∈ undeletable w1 ->
    path (final (Next tt) w1 a
            (mk_result
               (Some (PathError "remove" (spec_output_path P cfg a) "operation not permitted"))
               (compression_ratio (ByteSize so) (ByteSize si)) false
               (spec_output_path P cfg a))
            (encode_events a ++
             [EvStat (spec_output_path P cfg a);
              LogBigger (spec_output_path P cfg a) a;
              EvRemove (spec_output_path P cfg a)])).

End Paths.

(** ** The worker pool

    [pool.worker], [pool.start], [pool.wait] and [pool.stop] as a
    transition system.  One transition is one step of one goroutine; a
    schedule picks which.  A call of [execute] by a worker is one
    transition, taken when the call ends. *)

(** Where a goroutine started by [start] is in [func (p *pool) worker()]. *)
Inductive worker_state :=
  | Waiting                      (* blocked in the [select] *)
  | Executing (j : job)          (* in [p.execute(j)] *)
  | Leaving                      (* returned from the loop, [wg.Done] pending *)
  | Exited                       (* [wg.Done] called, goroutine over *)
  | Unwinding (v : panic_value)  (* [execute] panicked, [wg.Done] pending *)
  | Dead (v : panic_value).      (* [wg.Done] called while panicking *)

(** Where a call of [wait] or of [stop] is. *)
Inductive call_state :=
  | NotCalled
  | Blocked      (* in [p.wg.Wait()] *)
  | Returned.

Record pool_state := {
  ps_world : world;
  ps_pending : list job;            (* senders blocked in [p.jobs <- j], oldest first *)
  ps_jobs_closed : bool;            (* [close(p.jobs)] happened *)
  ps_cancelled : bool;              (* [p.ctx.Done()] is closed *)
  ps_wg : Z;                        (* the counter of [p.wg] *)
  ps_workers : list worker_state;
  ps_started : list job;            (* the jobs workers have received *)
  ps_finished : list (job * job);   (* as received, and as [execute] left it *)
  ps_wait : call_state;
  ps_stop : call_state;
  ps_crashed : option panic_value;  (* the process died of this panic *)
}.

(** [newPool(context.Background(), workers)], in world [w]: [start] has
    added every worker to the wait group and started it. *)
Definition newPool (workers : Z) (w : world) : pool_state :=
  {| ps_world := w; ps_pending := []; ps_jobs_closed := false; ps_cancelled := false;
     ps_wg := Z.of_nat (Z.to_nat workers);
     ps_workers := replicate (Z.to_nat workers) Waiting;
     ps_started := []; ps_finished := [];
     ps_wait := NotCalled; ps_stop := NotCalled; ps_crashed := None |}.

(** What a schedule can pick. *)
Inductive label :=
  | Offer (inp : string) (q : Z)   (* [p.jobs <- newJob(path, quality)] starts *)
  | Receive (i : nat)              (* [case j, ok := <-p.jobs] with [ok] *)
  | NoMoreWork (i : nat)           (* [case j, ok := <-p.jobs] with [!ok] *)
  | DoneEarly (i : nat)            (* [case <-p.ctx.Done()] *)
  | Execute (i : nat)              (* [p.execute(j)] ends *)
  | WgDone (i : nat)               (* the deferred [p.wg.Done()] *)
  | Crash (i : nat)                (* the runtime ends the process *)
  | WaitCall                       (* [wait]: [close(p.jobs)] *)
  | WaitReturn                     (* [wait]: [p.wg.Wait()] returns *)
  | StopCall                       (* [stop]: [p.done()] *)
  | StopReturn.                    (* [stop]: [p.wg.Wait()] returns *)

Definition set_worker (i : nat) (ws : worker_state) (s : pool_state) : pool_state :=
  {| ps_world := ps_world s; ps_pending := ps_pending s; ps_jobs_closed := ps_jobs_closed s;
     ps_cancelled := ps_cancelled s; ps_wg := ps_wg s;
     ps_workers := <[i := ws]> (ps_workers s);
     ps_started := ps_started s; ps_finished := ps_finished s;
     ps_wait := ps_wait s; ps_stop := ps_stop s; ps_crashed := ps_crashed s |}.

Definition wg_add (d : Z) (s : pool_state) : pool_state :=
  {| ps_world := ps_world s; ps_pending := ps_pending s; ps_jobs_closed := ps_jobs_closed s;
     ps_cancelled := ps_cancelled s; ps_wg := ps_wg s + d;
     ps_workers := ps_workers s;
     ps_started := ps_started s; ps_finished := ps_finished s;
     ps_wait := ps_wait s; ps_stop := ps_stop s; ps_crashed := ps_crashed s |}.

(** One transition of the pool, or [None] when the schedule's pick cannot
    move. *)
Definition pool_step (P : platform) (cfg : flags) (l : label) (s : pool_state)
    : option pool_state :=
  match ps_crashed s with
  | Some _ => None
  | None =>
      match l with
      | Offer inp q =>
          if ps_jobs_closed s then None
          else Some
            {| ps_world := ps_world s; ps_pending := ps_pending s ++ [newJob inp q];
               ps_jobs_closed := false; ps_cancelled := ps_cancelled s; ps_wg := ps_wg s;
               ps_workers := ps_workers s;
               ps_started := ps_started s; ps_finished := ps_finished s;
               ps_wait := ps_wait s; ps_stop := ps_stop s; ps_crashed := None |}
      | Receive i =>
          match ps_workers s !! i, ps_pending s with
          | Some Waiting, j :: rest => Some
            {| ps_world := ps_world s; ps_pending := rest;
               ps_jobs_closed := ps_jobs_closed s; ps_cancelled := ps_cancelled s;
               ps_wg := ps_wg s;
               ps_workers := <[i := Executing j]> (ps_workers s);
               ps_started := ps_started s ++ [j]; ps_finished := ps_finished s;
               ps_wait := ps_wait s; ps_stop := ps_stop s; ps_crashed := None |}
          | _, _ => None
          end
      | NoMoreWork i =>
          match ps_workers s !! i, ps_pending s with
          | Some Waiting, [] =>
              if ps_jobs_closed s then Some (set_worker i Leaving s) else None
          | _, _ => None
          end
      | DoneEarly i =>
          match ps_workers s !! i with
          | Some Waiting =>
              if ps_cancelled s then Some (set_worker i Leaving s) else None
          | _ => None
          end
      | Execute i =>
          match ps_workers s !! i with
          | Some (Executing j) =>
              let x := execute P cfg j (ps_world s) in
              Some
                {| ps_world := world_after x; ps_pending := ps_pending s;
                   ps_jobs_closed := ps_jobs_closed s; ps_cancelled := ps_cancelled s;
                   ps_wg := ps_wg s;
                   ps_workers :=
                     <[i := match outcome x with Panic v => Unwinding v | _ => Waiting end]>
                       (ps_workers s);
                   ps_started := ps_started s;
                   ps_finished := ps_finished s ++ [(j, job_after x)];
                   ps_wait := ps_wait s; ps_stop := ps_stop s; ps_crashed := None |}
          | _ => None
          end
      | WgDone i =>
          match ps_workers s !! i with
          | Some Leaving => Some (wg_add (-1) (set_worker i Exited s))
          | Some (Unwinding v) => Some (wg_add (-1) (set_worker i (Dead v) s))
          | _ => None
          end
      | Crash i =>
          match ps_workers s !! i with
          | Some (Dead v) => Some
            {| ps_world := ps_world s; ps_pending := ps_pending s;
               ps_jobs_closed := ps_jobs_closed s; ps_cancelled := ps_cancelled s;
               ps_wg := ps_wg s; ps_workers := ps_workers s;
               ps_started := ps_started s; ps_finished := ps_finished s;
               ps_wait := ps_wait s; ps_stop := ps_stop s; ps_crashed := Some v |}
          | _ => None
          end
      | WaitCall =>
          match ps_wait s, ps_pending s, ps_jobs_closed s with
          | NotCalled, [], false => Some
            {| ps_world := ps_world s; ps_pending := [];
               ps_jobs_closed := true; ps_cancelled := ps_cancelled s;
               ps_wg := ps_wg s; ps_workers := ps_workers s;
               ps_started := ps_started s; ps_finished := ps_finished s;
               ps_wait := Blocked; ps_stop := ps_stop s; ps_crashed := None |}
          | _, _, _ => None
          end
      | WaitReturn =>
          match ps_wait s with
          | Blocked =>
              if ps_wg s =? 0 then Some
                {| ps_world := ps_world s; ps_pending := ps_pending s;
                   ps_jobs_closed := ps_jobs_closed s; ps_cancelled := ps_cancelled s;
                   ps_wg := ps_wg s; ps_workers := ps_workers s;
                   ps_started := ps_started s; ps_finished := ps_finished s;
                   ps_wait := Returned; ps_stop := ps_stop s; ps_crashed := None |}
              else None
          | _ => None
          end
      | StopCall =>
          match ps_stop s with
          | NotCalled => Some
            {| ps_world := ps_world s; ps_pending := ps_pending s;
               ps_jobs_closed := ps_jobs_closed s; ps_cancelled := true;
               ps_wg := ps_wg s; ps_workers := ps_workers s;
               ps_started := ps_started s; ps_finished := ps_finished s;
               ps_wait := ps_wait s; ps_stop := Blocked; ps_crashed := None |}
          | _ => None
          end
      | StopReturn =>
          match ps_stop s with
          | Blocked =>
              if ps_wg s =? 0 then Some
                {| ps_world := ps_world s; ps_pending := ps_pending s;
                   ps_jobs_closed := ps_jobs_closed s; ps_cancelled := ps_cancelled s;
                   ps_wg := ps_wg s; ps_workers := ps_workers s;
                   ps_started := ps_started s; ps_finished := ps_finished s;
                   ps_wait := ps_wait s; ps_stop := Returned; ps_crashed := None |}
              else None
          | _ => None
          end
      end
  end.

(** A schedule, run from [s]: [None] if one of its picks cannot move. *)
Fixpoint run_schedule (P : platform) (cfg : flags) (sched : list label) (s : pool_state)
    : option pool_state :=
  match sched with
  | [] => Some s
  | l :: rest =>
      match pool_step P cfg l s with
      | Some s' => run_schedule P cfg rest s'
      | None => None
      end
  end.

(** The states a pool of [n] workers created in world [w] can be in. *)
Definition reachable (P : platform) (cfg : flags) (n : Z) (w : world) (s : pool_state) : Prop :=
  exists sched, run_schedule P cfg sched (newPool n w) = Some s.

(** The worker has called [wg.Done]: it runs nothing of the pool any more. *)
Definition has_exited (ws : worker_state) : bool :=
  match ws with
  | Exited | Dead _ => true
  | _ => false
  end.

(** The job a worker is executing, if any. *)
Definition flight (x : worker_state) : list job :=
  match x with Executing j => [j] | _ => [] end.

(** The jobs whose [execute] is under way. *)
Definition in_flight (ws : list worker_state) : list job :=
  flat_map flight ws.

(** The job's channel carries exactly one result, [r], and is closed. *)
Definition delivered_once (j : job) : Prop :=
  exists r, resCh j = [ChSend r; ChClose] /\ res j = Some r.

(** The workers that have not called [wg.Done] yet. *)
Definition live_count (ws : list worker_state) : nat :=
  sum_list_with (fun x => if has_exited x then 0 else 1)%nat ws.

(** How many transitions a worker is from the end of its goroutine once
    cancellation is signalled and no new job is handed to it. *)
Definition steps_left (x : worker_state) : nat :=
  match x with
  | Executing _ => 3
  | Waiting | Unwinding _ => 2
  | Leaving | Dead _ => 1
  | Exited => 0
  end.

(** What holds in every state the pool can reach. *)
Record pool_inv (s : pool_state) : Prop := {
  inv_wg : ps_wg s = Z.of_nat (live_count (ps_workers s));
  inv_cancelled : ps_stop s <> NotCalled -> ps_cancelled s = true;
  inv_stop_returned :
    ps_stop s = Returned -> Forall (fun x => has_exited x = true) (ps_workers s);
  inv_pending_fresh : Forall (fun j => resCh j = []) (ps_pending s);
  inv_in_flight_fresh : Forall (fun j => resCh j = []) (in_flight (ps_workers s));
  inv_finished : Forall (fun p => delivered_once (snd p)) (ps_finished s);
  inv_started : ps_started s ≡ₚ map fst (ps_finished s) ++ in_flight (ps_workers s);
}.

#[global] Arguments live_count : simpl never.
#[global] Arguments in_flight : simpl never.

(** ** Binary64 *)

(** [x] is not zero and not NaN, and has sign [s]. *)
Definition signed_nonzero (s : bool) (x : spec_float) : Prop :=
  x = S754_infinity s \/ exists m e, x = S754_finite s m e.


(** ** More about [execute] *)

(** A line written with [log.Println] or [log.Printf]. *)
Definition is_log (e : event) : bool :=
  match e with
  | LogAlreadyExists _ | LogTooSmall _ _ _ | LogDryRun _ _ | LogEncodeFailed _
  | LogBigger _ _ | LogDone _ _ _ _ _ => true
  | _ => false
  end.


(** ** More about the pool *)

(** The jobs a schedule offers on [p.jobs], in order. *)
Definition offered (sched : list label) : list job :=
  flat_map (fun l => match l with Offer inp q => [newJob inp q] | _ => [] end) sched.

(** What holds of the submission side in every state the pool can reach:
    once [wait] has closed the queue nothing is offered on it any more, and
    [wait] has returned only if every worker has called [wg.Done]. *)
Record wait_inv (s : pool_state) : Prop := {
  winv_closed : ps_wait s <> NotCalled -> ps_jobs_closed s = true;
  winv_drained : ps_jobs_closed s = true -> ps_pending s = [];
  winv_returned :
    ps_wait s = Returned -> Forall (fun x => has_exited x = true) (ps_workers s);
}.

(** As long as the queue is open and nothing is cancelled, no worker has
    left its loop. *)
Definition in_loop (x : worker_state) : Prop := x <> Leaving /\ x <> Exited.

Definition loop_inv (s : pool_state) : Prop :=
  ps_jobs_closed s = false -> ps_cancelled s = false -> Forall in_loop (ps_workers s).

(** ** The file-name filter

    [imageRe = regexp.MustCompile(`(?i)\.(jpe?g|png)$`)].  The pattern
    uses literals, concatenation, alternation, [?] and [$] only, under the
    fold-case flag.  Its literals are ASCII, no byte of a multi-byte UTF-8
    sequence is, and none of them folds to a non-ASCII rune, so matching
    byte by byte is matching rune by rune. *)
Inductive regex :=
  | Lit (c : ascii)          (* a literal, under [(?i)] *)
  | Cat (r1 r2 : regex)
  | Alt (r1 r2 : regex)
  | Quest (r : regex)        (* [r?] *)
  | EndText.                 (* [$] without the [m] flag *)

(** The lower-case form of an ASCII letter; other bytes are left alone. *)
Definition to_lower (a : ascii) : ascii :=
  let n := nat_of_ascii a in
  if (65 <=? n)%nat && (n <=? 90)%nat then ascii_of_nat (n + 32) else a.

Fixpoint lower (s : string) : string :=
  match s with
  | EmptyString => EmptyString
  | String a rest => String (to_lower a) (lower rest)
  end.

(** [r] matches a prefix of [s] and [k] accepts what is left. *)
Fixpoint match_here (r : regex) (s : string) (k : string -> bool) : bool :=
  match r with
  | Lit c =>
      match s with
      | String a rest => Ascii.eqb (to_lower a) (to_lower c) && k rest
      | EmptyString => false
      end
  | Cat r1 r2 => match_here r1 s (fun s' => match_here r2 s' k)
  | Alt r1 r2 => match_here r1 s k || match_here r2 s k
  | Quest r1 => match_here r1 s k || k s
  | EndText =>
      match s with
      | EmptyString => k s
      | String _ _ => false
      end
  end.

(** [func (re *Regexp) MatchString(s string) bool]: [re] matches
    somewhere in [s]. *)
Fixpoint MatchString (re : regex) (s : string) : bool :=
  match_here re s (fun _ => true) ||
  match s with
  | EmptyString => false
  | String _ rest => MatchString re rest
  end.

Definition imageRe : regex :=
  Cat (Lit ".")
    (Cat (Alt (Cat (Lit "j") (Cat (Lit "p") (Cat (Quest (Lit "e")) (Lit "g"))))
              (Cat (Lit "p") (Cat (Lit "n") (Lit "g"))))
         EndText).

(** ** [main] *)

(** The package-level variables that [main] reads besides [flags]. *)
Record cli := {
  cli_dir : string;       (* [dir] *)
  cli_quality : Z;        (* [quality], a [uint] *)
  cli_workers : Z;        (* [workers] *)
}.

(** One call that [filepath.Walk] makes to its callback: the path, what
    [info.Name()] gives, and the error Walk met at that entry. *)
Record visit := {
  v_path : string;
  v_name : string;
  v_err : option error;
}.

(** What [main] needs from outside the repository besides [platform]:
    [strings.TrimSpace], and for a root directory the entries that
    [filepath.Walk] would visit, in its order. *)
Record crawl_env := {
  strings_TrimSpace : string -> string;
  walked : string -> list visit;
}.

(** The callback [main] hands to [filepath.Walk]: the sends on [p.jobs] it
    makes, and the error it returns. *)
Definition walk_fn (quality : Z) (v : visit) : list label * option error :=
  match v_err v with
  | Some e => ([], Some e)
  | None =>
      if MatchString imageRe (v_name v)
      then ([Offer (v_path v) quality], None)
      else ([], None)
  end.

(** [filepath.Walk(root, fn)] over the entries it visits: [fn] is called
    on each in turn, and its first error ends the walk and is returned. *)
Fixpoint filepath_Walk (fn : visit -> list label * option error) (visits : list visit)
    : list label * option error :=
  match visits with
  | [] => ([], None)
  | v :: rest =>
      match fn v with
      | (sends, Some e) => (sends, Some e)
      | (sends, None) =>
          let '(sends', e) := filepath_Walk fn rest in ((sends ++ sends')%list, e)
      end
  end.

(** How [main] ends: [os.Exit(code)] before the crawl, or a crawl with a
    pool of [workers] workers, during which the main goroutine takes
    [steps] on the pool, in this order; [walk_err] is what
    [filepath.Walk] returned. *)
Inductive main_result :=
  | Exit (code : Z)
  | Crawl (workers : Z) (steps : list label) (walk_err : option error).

(** [func main()] *)
Definition main (P : platform) (E : crawl_env) (cfg : flags) (c : cli) : main_result :=
  if ((String.length (cli_dir c) <? 1)%nat || (cli_quality c <? 1)) && negb (dryRun cfg)
  then Exit 1
  else
    (* p := newPool(context.Background(), workers) *)
    let dir := strings_TrimSpace E (cli_dir c) in
    match filepath_Abs P dir with
    | (_, Some _) => Exit 2
    | (dir, None) =>
        (* defer p.stop() *)
        let '(sends, e) := filepath_Walk (walk_fn (cli_quality c)) (walked E dir) in
        Crawl (cli_workers c)
          (sends ++ [WaitCall; WaitReturn] ++ [StopCall; StopReturn])%list e
    end.

(** The transitions of the pool that the main goroutine takes. *)
Definition main_label (l : label) : bool :=
  match l with
  | Offer _ _ | WaitCall | WaitReturn | StopCall | StopReturn => true
  | _ => false
  end.

(** The entries visited before the first one that carries an error. *)
Fixpoint before_error (visits : list visit) : list visit :=
  match visits with
  | [] => []
  | v :: rest =>
      match v_err v with
      | Some _ => []
      | None => v :: before_error rest
      end
  end.

(** The jobs for the images among [visits]. *)
Definition images (quality : Z) (visits : list visit) : list job :=
  map (fun v => newJob (v_path v) quality)
      (List.filter (fun v => MatchString imageRe (v_name v)) (before_error visits)).

Module SampleCrawl.

Definition is_space (a : ascii) : bool :=
  match nat_of_ascii a with
  | 9%nat | 10%nat | 11%nat | 12%nat | 13%nat | 32%nat => true
  | _ => false
  end.

Fixpoint trim_left (s : string) : string :=
  match s with
  | EmptyString => EmptyString
  | String a rest => if is_space a then trim_left rest else s
  end.

Fixpoint trim_right (s : string) : string :=
  match s with
  | EmptyString => EmptyString
  | String a rest =>
      match trim_right rest with
      | EmptyString => if is_space a then EmptyString else String a EmptyString
      | rest' => String a rest'
      end
  end.

Definition TrimSpace (s : string) : string := trim_right (trim_left s).

(** A directory [/photos] with two images, a text file and an output of
    an earlier run. *)
Definition photos : list visit :=
  [ {| v_path := "/photos"; v_name := "photos"; v_err := None |};
    {| v_path := "/photos/a.png"; v_name := "a.png"; v_err := None |};
    {| v_path := "/photos/b.JPG"; v_name := "b.JPG"; v_err := None |};
    {| v_path := "/photos/b.webp"; v_name := "b.webp"; v_err := None |};
    {| v_path := "/photos/notes.txt"; v_name := "notes.txt"; v_err := None |} ].

Definition env : crawl_env :=
  {| strings_TrimSpace := TrimSpace;
     walked := fun d => if String.eqb d "/photos" then photos else [] |}.

End SampleCrawl.

(** * Proofs *)

(** ** Running the monad *)

Lemma run_bind {A B} (m : M A) (f : A -> M B) (s : exec_state) :
  (m ≫= f) s = match m s with
               | (Next a, s') => f a s'
               | (Return, s') => (Return, s')
               | (Panic v, s') => (Panic v, s')
               end.
Proof. reflexivity. Qed.

Lemma slice_to_within (P : platform) (a : string) (s : exec_state) :
  ext_within_base P a ->
  slice_to (filepath_Base P a)
    (Z.of_nat (String.length (filepath_Base P a)) - Z.of_nat (String.length (filepath_Ext P a))) s
  = (Next (substring 0 (String.length (filepath_Base P a) - String.length (filepath_Ext P a))
             (filepath_Base P a)), s).
Proof.
  unfold ext_within_base, slice_to. intros Hle.
  destruct (decide _) as [_ | Hn]; [| lia].
  now rewrite <- Nat2Z.inj_sub, Nat2Z.id by exact Hle.
Qed.

Lemma slice_to_outside (P : platform) (a : string) (s : exec_state) :
  ~ ext_within_base P a ->
  slice_to (filepath_Base P a)
    (Z.of_nat (String.length (filepath_Base P a)) - Z.of_nat (String.length (filepath_Ext P a))) s
  = (Panic (PanicSliceBounds
       (Z.of_nat (String.length (filepath_Base P a)) - Z.of_nat (String.length (filepath_Ext P a)))), s).
Proof.
  unfold ext_within_base, slice_to. intros Hgt.
  destruct (decide _) as [Hin | _]; [lia | reflexivity].
Qed.

Ltac rew_hyps :=
  repeat match goal with
         | H : _ = _ |- _ => progress rewrite H
         end.

(** Run the monad as far as the hypotheses in the context decide it. *)
Ltac exec :=
  repeat first
    [ rewrite run_bind
    | rewrite slice_to_within by assumption
    | rewrite slice_to_outside by assumption
    | progress cbn
    | progress rew_hyps ].

Ltac fold_out P cfg a :=
  repeat match goal with
         | |- context [filepath_Join P ?x ?y] =>
             change (filepath_Join P x y) with (spec_output_path P cfg a)
         end.

(** Close a goal [path .. x] with the constructor application [H], whose
    final state agrees with [x] up to the bracketing of the event list. *)
Ltac by_path H :=
  match goal with
  | |- path _ _ _ _ ?x =>
      match type of H with
      | path _ _ _ _ ?y =>
          replace x with y;
          [ exact H
          | unfold final, delivered, mk_result, encode_events, sizing_events;
            cbn; rewrite <- ?app_assoc; cbn; reflexivity ]
      end
  end.

(** The existence gate, when it lets the job through: at most one
    [os.Stat], and nothing else. *)
Lemma gate_open_run P cfg w a (k : Z -> M unit) (s : exec_state) :
  st_world s = w ->
  gate_open P cfg w a ->
  when (negb (replace cfg))
    (fi ← stat (spec_output_path P cfg a);
     match fi with inl sz => k sz | inr _ => mret tt end) s
  = (Next tt,
     {| st_world := st_world s; st_j := st_j s; st_r := st_r s;
        st_events := (st_events s ++
                      (if replace cfg then [] else [EvStat (spec_output_path P cfg a)]))%list |}).
Proof.
  intros Hw [Hrep | Hout].
  - rewrite Hrep. cbn. rewrite app_nil_r. now destruct s.
  - destruct (replace cfg); cbn.
    + rewrite app_nil_r. now destruct s.
    + unfold stat, os_Stat. repeat (rewrite run_bind; cbn).
      rewrite Hw, Hout. reflexivity.
Qed.

(** Every call of [execute] on a job with a fresh channel takes one of the
    eleven paths, and ends in the state that path describes. *)
Lemma execute_follows_path P cfg j w :
  resCh j = [] -> path P cfg j w (execute P cfg j w).
Proof.
  intros Hfresh.
  unfold execute, with_defer, execute_body, derive_output_path, convert, deliver.
  destruct (filepath_Abs P (input j)) as [a [e|]] eqn:Habs.
  { exec. exact (path_abs_error P cfg j w a e Habs). }
  destruct (decide (String.length (filepath_Ext P a) <= String.length (filepath_Base P a))%nat)
    as [Hext|Hext]; fold (ext_within_base P a) in Hext.
  2:{ exec. exact (path_slice_panic P cfg j w a Habs Hext). }
  exec. fold_out P cfg a.
  assert (Hgate : (replace cfg = false /\ exists sz, files w !! spec_output_path P cfg a = Some sz)
                  \/ gate_open P cfg w a).
  { unfold gate_open. destruct (replace cfg); [by right; left|].
    destruct (files w !! spec_output_path P cfg a) eqn:E; [left; eauto | right; by right]. }
  destruct Hgate as [[Hrep [sz Hout]] | Hgate].
  { unfold stat, os_Stat. exec.
    exact (path_already_exists P cfg j w a sz Habs Hext Hrep Hout). }
  rewrite (gate_open_run P cfg w a) by (done || exact Hgate).
  unfold mustGetFileSize, stat, os_Stat. exec.
  destruct (files w !! a) as [si|] eqn:Hin.
  2:{ exec. by_path (path_input_stat_panic P cfg j w a Habs Hext Hgate Hin). }
  assert (Hsz : reaches_sizing P cfg j w a si) by done.
  exec.
  destruct (Z.ltb_spec (ByteSize si) (minFileSize cfg)) as [Hsmall | Hbig].
  { exec. by_path (path_too_small P cfg j w a si Hsz Hsmall). }
  exec.
  destruct (dryRun cfg) eqn:Hdry.
  { exec. by_path (path_dry_run P cfg j w a si Hsz Hbig Hdry). }
  assert (Henc : reaches_encode P cfg j w a si) by done.
  unfold run_cwebp. exec.
  destruct (cwebp_Run P (quality j) a (spec_output_path P cfg a) w) as [w1 [e|]] eqn:Hrun.
  { exec. by_path (path_encode_error P cfg j w a si w1 e Henc Hrun). }
  exec.
  destruct (files w1 !! spec_output_path P cfg a) as [so|] eqn:Hso.
  2:{ exec. by_path (path_output_stat_panic P cfg j w a si w1 Henc Hrun Hso). }
  assert (Hd : encoded P cfg j w a si w1 so) by done.
  exec.
  destruct (Z.ltb_spec (ByteSize si) (ByteSize so)) as [Hgt | Hle].
  2:{ exec. by_path (path_compressed P cfg j w a si w1 so Hd Hle). }
  unfold remove, os_Remove. exec.
  destruct (decide (spec_output_path P cfg a ∈ undeletable w1)) as [Hund | Hund].
  - exec. by_path (path_bigger_remove_error P cfg j w a si w1 so Hd Hgt Hund).
  - exec. by_path (path_bigger_removed P cfg j w a si w1 so Hd Hgt Hund).
Qed.

(** ** What each path means for the caller *)

(** Case analysis on the path that [execute P cfg j w] took; the cases that
    contradict the context are closed. *)
Ltac same_lhs :=
  repeat match goal with
         | H1 : ?x = _, H2 : ?x = _ |- _ => rewrite H1 in H2; simplify_eq
         end.

Ltac on_path P cfg j w Hfresh :=
  let Hp := fresh "Hp" in
  pose proof (execute_follows_path P cfg j w Hfresh) as Hp;
  inversion Hp;
  unfold encoded, reaches_encode, reaches_sizing, gate_open in *;
  destruct_and?; simplify_eq; same_lhs; try (destruct_or?; congruence); try lia.

(** C4.  With [replace] unset and a file already at the derived output
    path, the job ends at the existence gate: the result has
    [exists = true], no error and a zero [compression]; [execute] has made
    one [os.Stat] call, on the output path, and nothing else (no size check
    of the input, no encoder, no removal), and the world is as it was. *)
Theorem existence_gate_stops P cfg j w a sz :
  resCh j = [] ->
  replace cfg = false ->
  filepath_Abs P (input j) = (a, None) ->
  ext_within_base P a ->
  files w !! spec_output_path P cfg a = Some sz ->
  outcome (execute P cfg j w) = Next tt /\
  result (execute P cfg j w) = mk_result None 0 true (spec_output_path P cfg a) /\
  world_after (execute P cfg j w) = w /\
  events (execute P cfg j w) =
    [EvGoWaitForResult; EvStat (spec_output_path P cfg a); LogAlreadyExists a].
Proof.
  intros Hfresh Hrep Habs Hext Hout.
  on_path P cfg j w Hfresh; repeat split.
Qed.

Lemma existence_gate_stops_witness :
  let P := Sample.unix (Some "/work") in
  let w := Sample.disk [("/photos/a.png", 51200); ("/photos/a.webp", 30000)] in
  let x := execute P Sample.defaults (newJob "/photos/a.png" 80) w in
  outcome x = Next tt /\
  result x = mk_result None 0 true "/photos/a.webp" /\
  world_after x = w /\
  events x = [EvGoWaitForResult; EvStat "/photos/a.webp"; LogAlreadyExists "/photos/a.png"].
Proof.
  apply (existence_gate_stops (Sample.unix (Some "/work")) Sample.defaults
           (newJob "/photos/a.png" 80)
           (Sample.disk [("/photos/a.png", 51200); ("/photos/a.webp", 30000)])
           "/photos/a.png" 30000).
  - reflexivity.
  - reflexivity.
  - reflexivity.
  - unfold ext_within_base. vm_compute. lia.
  - vm_compute. reflexivity.
Defined.

Lemma ByteSize_file_size n : file_size n -> ByteSize n = n.
Proof. unfold file_size, ByteSize. intros H. apply Z.mod_small. lia. Qed.

Lemma float64_of_file_size n :
  file_size n -> float64_of_uint64 n = PrimFloat.of_uint63 (Uint63.of_Z n).
Proof.
  unfold file_size, float64_of_uint64. intros H.
  destruct (Z.ltb_spec n (2 ^ 63)); [reflexivity | lia].
Qed.

(** What [derive_output_path] does when the path resolves and the slice is
    in range. *)
Lemma derive_output_path_run P cfg a (s : exec_state) :
  filepath_Abs P (input (st_j s)) = (a, None) ->
  ext_within_base P a ->
  derive_output_path P cfg s =
    (Next tt,
     {| st_world := st_world s; st_j := set_input a (st_j s);
        st_r := set_outputFile (spec_output_path P cfg a) (set_err None (st_r s));
        st_events := st_events s |}).
Proof.
  intros Habs Hext. unfold derive_output_path. exec. reflexivity.
Qed.

(** [derive_output_path] leaves the world alone and makes no call that
    reaches it: it has no effect on the file system. *)
Lemma derive_output_path_pure P cfg (s : exec_state) :
  st_world (snd (derive_output_path P cfg s)) = st_world s /\
  st_events (snd (derive_output_path P cfg s)) = st_events s.
Proof.
  unfold derive_output_path. rewrite run_bind. cbn.
  destruct (filepath_Abs P (input (st_j s))) as [a [e|]]; exec; [done|].
  unfold slice_to. destruct (decide _); cbn; done.
Qed.

(** C5.  When the input path resolves to the absolute path [a] (and the
    extension is part of the base name), the output path of the job's
    result is directory joined with prefix + base name without extension +
    suffix + ".webp".  The derivation leaves the world and the event list
    as they were, so it has no file-system effect; its outcome depends on
    the input path, the prefix and the suffix only, not on the world or on
    the other flags; and run again on the state it left, with [a] its own
    absolute form, it changes nothing. *)
Theorem output_path_derivation P cfg j w a :
  resCh j = [] ->
  filepath_Abs P (input j) = (a, None) ->
  ext_within_base P a ->
  outputFile (result (execute P cfg j w)) = spec_output_path P cfg a /\
  (forall s,
     st_world (snd (derive_output_path P cfg s)) = st_world s /\
     st_events (snd (derive_output_path P cfg s)) = st_events s) /\
  (forall cfg' j' w',
     resCh j' = [] -> input j' = input j ->
     prependToName cfg' = prependToName cfg -> appendToName cfg' = appendToName cfg ->
     outputFile (result (execute P cfg' j' w')) = outputFile (result (execute P cfg j w))) /\
  (filepath_Abs P a = (a, None) ->
   forall s, input (st_j s) = input j ->
     derive_output_path P cfg (snd (derive_output_path P cfg s)) = derive_output_path P cfg s).
Proof.
  intros Hfresh Habs Hext.
  assert (Hout : forall cfg' j' w',
            resCh j' = [] -> input j' = input j ->
            outputFile (result (execute P cfg' j' w')) = spec_output_path P cfg' a).
  { intros cfg' j' w' Hfresh' Hin. rewrite <- Hin in Habs.
    on_path P cfg' j' w' Hfresh'; reflexivity. }
  split; [now apply Hout|]. split; [apply derive_output_path_pure|]. split.
  - intros cfg' j' w' Hfresh' Hin Hpre Happ.
    rewrite (Hout cfg' j' w'), (Hout cfg j w) by done.
    unfold spec_output_path. now rewrite Hpre, Happ.
  - intros Hidem s Hin.
    rewrite (derive_output_path_run P cfg a s) by (rewrite ?Hin; done).
    cbn. rewrite (derive_output_path_run P cfg a) by done.
    reflexivity.
Qed.

Lemma output_path_derivation_witness :
  outputFile (result (execute (Sample.unix (Some "/work")) Sample.defaults
                        (newJob "/photos/holiday.jpeg" 80)
                        (Sample.disk [("/photos/holiday.jpeg", 51200)])))
  = "/photos/holiday.webp".
Proof.
  refine (proj1 (output_path_derivation (Sample.unix (Some "/work")) Sample.defaults
                   (newJob "/photos/holiday.jpeg" 80)
                   (Sample.disk [("/photos/holiday.jpeg", 51200)]) "/photos/holiday.jpeg"
                   _ _ _)).
  - reflexivity.
  - reflexivity.
  - unfold ext_within_base. vm_compute. lia.
Defined.

(** C6.  When the job has passed the existence gate and the input file is
    smaller than the minimum size, the job stops there: no error, the
    world as it was (so no output file has appeared), and no call of the
    encoder or of [os.Remove]. *)
Theorem minimum_size_gate_stops P cfg j w a si :
  resCh j = [] ->
  reaches_sizing P cfg j w a si ->
  file_size si ->
  si < minFileSize cfg ->
  outcome (execute P cfg j w) = Next tt /\
  result (execute P cfg j w) = mk_result None 0 false (spec_output_path P cfg a) /\
  world_after (execute P cfg j w) = w /\
  events (execute P cfg j w) =
    (sizing_events P cfg a ++ [LogTooSmall a si (minFileSize cfg)])%list /\
  Forall (fun e => mutates e = false) (events (execute P cfg j w)).
Proof.
  intros Hfresh Hsz Hfs Hlt.
  rewrite <- (ByteSize_file_size si Hfs) in Hlt.
  on_path P cfg j w Hfresh.
  rewrite (ByteSize_file_size si Hfs). repeat split.
  unfold events, final, sizing_events. cbn.
  destruct (replace cfg); repeat constructor.
Qed.

Lemma minimum_size_gate_stops_witness :
  let w := Sample.disk [("/photos/icon.png", 5120)] in
  let x := execute (Sample.unix (Some "/work")) Sample.defaults (newJob "/photos/icon.png" 80) w in
  outcome x = Next tt /\
  result x = mk_result None 0 false "/photos/icon.webp" /\
  world_after x = w /\
  events x =
    [EvGoWaitForResult; EvStat "/photos/icon.webp"; EvStat "/photos/icon.png";
     LogTooSmall "/photos/icon.png" 5120 10240] /\
  Forall (fun e => mutates e = false) (events x).
Proof.
  apply (minimum_size_gate_stops (Sample.unix (Some "/work")) Sample.defaults
           (newJob "/photos/icon.png" 80) (Sample.disk [("/photos/icon.png", 5120)])
           "/photos/icon.png" 5120).
  - reflexivity.
  - unfold reaches_sizing, ext_within_base, gate_open. vm_compute.
    repeat split; (lia || (right; reflexivity)).
  - unfold file_size. lia.
  - vm_compute. reflexivity.
Defined.

(** C7.  With [dryRun] set, whatever path the job takes, the world after
    it is the world before it and [execute] has called neither the encoder
    nor [os.Remove]; and once the input path has resolved, the result's
    output path is the derived one. *)
Theorem dry_run_no_mutation P cfg j w :
  resCh j = [] ->
  dryRun cfg = true ->
  world_after (execute P cfg j w) = w /\
  Forall (fun e => mutates e = false) (events (execute P cfg j w)) /\
  (forall a, filepath_Abs P (input j) = (a, None) -> ext_within_base P a ->
     outputFile (result (execute P cfg j w)) = spec_output_path P cfg a).
Proof.
  intros Hfresh Hdry.
  on_path P cfg j w Hfresh;
    (split; [reflexivity|]; split;
     [ unfold events, final, sizing_events; cbn; destruct (replace cfg); repeat constructor
     | intros a' Ha' Hext'; same_lhs; try reflexivity; try contradiction ]).
Qed.

Lemma dry_run_no_mutation_witness :
  let w := Sample.disk [("/photos/a.png", 51200)] in
  let cfg := {| replace := false; dryRun := true; prependToName := "thumb-";
                appendToName := ""; minFileSize := 10240 |} in
  let x := execute (Sample.unix (Some "/work")) cfg (newJob "/photos/a.png" 80) w in
  world_after x = w /\
  Forall (fun e => mutates e = false) (events x) /\
  outputFile (result x) = "/photos/thumb-a.webp".
Proof.
  destruct (dry_run_no_mutation (Sample.unix (Some "/work"))
              {| replace := false; dryRun := true; prependToName := "thumb-";
                 appendToName := ""; minFileSize := 10240 |}
              (newJob "/photos/a.png" 80) (Sample.disk [("/photos/a.png", 51200)])
              eq_refl eq_refl) as (Hw & Hev & Hout).
  split; [exact Hw|]. split; [exact Hev|].
  apply (Hout "/photos/a.png").
  - reflexivity.
  - unfold ext_within_base. vm_compute. lia.
Defined.

(** C2.  Whatever path the job takes, and also when it panics, the job's
    channel has seen exactly one send, of the job's result, followed
    directly by its close; the goroutine waiting on the channel has stored
    that result in [j.res]. *)
Theorem one_result_then_close P cfg j w :
  resCh j = [] ->
  resCh (job_after (execute P cfg j w)) = [ChSend (result (execute P cfg j w)); ChClose] /\
  res (job_after (execute P cfg j w)) = Some (result (execute P cfg j w)).
Proof.
  intros Hfresh.
  on_path P cfg j w Hfresh; split; reflexivity.
Qed.

Lemma one_result_then_close_witness :
  let x := execute (Sample.unix (Some "/work")) Sample.defaults (newJob "/photos/a.png" 80)
             (Sample.disk [("/photos/a.png", 51200)]) in
  resCh (job_after x) = [ChSend (result x); ChClose] /\
  res (job_after x) = Some (result x).
Proof.
  apply (one_result_then_close (Sample.unix (Some "/work")) Sample.defaults
           (newJob "/photos/a.png" 80) (Sample.disk [("/photos/a.png", 51200)])).
  reflexivity.
Defined.

(** C3.  When the encoder has succeeded and the output file is larger than
    the input file, [execute] returns with, as the result's error, exactly
    what [os.Remove] of the output path reports (nil when the removal
    succeeds), leaving the world as [os.Remove] left it; and when the
    removal succeeds there is no file at the output path afterwards. *)
Theorem oversized_output_removed P cfg j w a si w1 so :
  resCh j = [] ->
  encoded P cfg j w a si w1 so ->
  file_size si -> file_size so ->
  si < so ->
  outcome (execute P cfg j w) = Next tt /\
  err (result (execute P cfg j w)) = snd (os_Remove w1 (spec_output_path P cfg a)) /\
  world_after (execute P cfg j w) = fst (os_Remove w1 (spec_output_path P cfg a)) /\
  (err (result (execute P cfg j w)) = None ->
   files (world_after (execute P cfg j w)) !! spec_output_path P cfg a = None /\
   exists e, os_Stat (world_after (execute P cfg j w)) (spec_output_path P cfg a) = inr e).
Proof.
  intros Hfresh Henc Hsi Hso Hlt.
  rewrite <- (ByteSize_file_size si Hsi), <- (ByteSize_file_size so Hso) in Hlt.
  on_path P cfg j w Hfresh; unfold os_Remove;
    match goal with H : files _ !! _ = Some _ |- _ => rewrite H end;
    (case_decide; [|]; try contradiction); cbn; repeat split; try discriminate.
  - apply lookup_delete_eq.
  - unfold os_Stat. cbn. rewrite lookup_delete_eq. eauto.
Qed.

Lemma oversized_output_removed_witness :
  let w := Sample.disk [("/photos/a.png", 20000)] in
  let x := execute (Sample.unix (Some "/work")) Sample.defaults (newJob "/photos/a.png" 150) w in
  outcome x = Next tt /\
  err (result x) = None /\
  files (world_after x) !! "/photos/a.webp" = None.
Proof.
  destruct (oversized_output_removed (Sample.unix (Some "/work")) Sample.defaults
              (newJob "/photos/a.png" 150) (Sample.disk [("/photos/a.png", 20000)])
              "/photos/a.png" 20000
              (Sample.disk [("/photos/a.png", 20000); ("/photos/a.webp", 30000)]) 30000)
    as (Hout & Herr & Hw & Hgone).
  - reflexivity.
  - unfold encoded, reaches_encode, reaches_sizing, ext_within_base, gate_open.
    vm_compute. repeat split; try lia; try discriminate. right; reflexivity.
  - unfold file_size. lia.
  - unfold file_size. lia.
  - lia.
  - split; [exact Hout|]. split; [exact Herr|]. apply Hgone. exact Herr.
Defined.

(** C8.  When the job has reached the encoder and the encoder has
    succeeded, leaving an output file, the result's [compression] is
    [(1 - float64(so) / float64(si)) * 100] in binary64 arithmetic, for the
    size [si] that [os.Stat] reported for the input and the size [so] it
    reported for the output; this holds also when the output is then
    removed for being larger. *)
Theorem compression_is_measured_ratio P cfg j w a si w1 so :
  resCh j = [] ->
  encoded P cfg j w a si w1 so ->
  file_size si -> file_size so ->
  compression (result (execute P cfg j w)) =
    ((1 - PrimFloat.of_uint63 (Uint63.of_Z so) / PrimFloat.of_uint63 (Uint63.of_Z si)) * 100)%float.
Proof.
  intros Hfresh Henc Hsi Hso.
  on_path P cfg j w Hfresh; cbn; unfold compression_ratio;
    rewrite !ByteSize_file_size, !float64_of_file_size by assumption; reflexivity.
Qed.

Lemma compression_is_measured_ratio_witness :
  compression (result (execute (Sample.unix (Some "/work")) Sample.defaults
                         (newJob "/photos/a.png" 80) (Sample.disk [("/photos/a.png", 51200)])))
  = ((1 - 40960 / 51200) * 100)%float.
Proof.
  apply (compression_is_measured_ratio (Sample.unix (Some "/work")) Sample.defaults
           (newJob "/photos/a.png" 80) (Sample.disk [("/photos/a.png", 51200)])
           "/photos/a.png" 51200
           (Sample.disk [("/photos/a.png", 51200); ("/photos/a.webp", 40960)]) 40960).
  - reflexivity.
  - unfold encoded, reaches_encode, reaches_sizing, ext_within_base, gate_open.
    vm_compute. repeat split; try lia; try discriminate. right; reflexivity.
  - unfold file_size. lia.
  - unfold file_size. lia.
Defined.

(** C1 fails as stated.  A job whose input file cannot be read by
    [os.Stat] (say a dangling link that the walk reported) makes
    [mustGetFileSize] panic: the result that is delivered has a nil error,
    [execute] ends in a panic, and a pool running that job dies of it while
    another job is still under way, without a result. *)
Lemma stat_failure_escapes_result :
  let P := Sample.unix (Some "/work") in
  let w := Sample.disk [("/photos/b.png", 51200)] in
  let e := PathError "stat" "/photos/a.png" "no such file or directory" in
  let x := execute P Sample.defaults (newJob "/photos/a.png" 80) w in
  os_Stat w "/photos/a.png" = inr e /\
  outcome x = Panic (PanicError e) /\
  err (result x) = None /\
  resCh (job_after x) = [ChSend (result x); ChClose] /\
  exists s,
    run_schedule P Sample.defaults
      [Offer "/photos/a.png" 80; Receive 0; Offer "/photos/b.png" 80; Receive 1;
       Execute 0; WgDone 0; Crash 0] (newPool 2 w) = Some s /\
    ps_crashed s = Some (PanicError e) /\
    in_flight (ps_workers s) = [newJob "/photos/b.png" 80] /\
    forall l, pool_step P Sample.defaults l s = None.
Proof.
  cbv zeta. split; [reflexivity|]. split; [vm_compute; reflexivity|].
  split; [vm_compute; reflexivity|]. split; [vm_compute; reflexivity|].
  eexists. split; [vm_compute; reflexivity|].
  split; [reflexivity|]. split; [reflexivity|]. intros l. reflexivity.
Qed.

(** C1, as the code has it.  A failure of [filepath.Abs], of the encoder or
    of [os.Remove] ends up in the result's [err] and [execute] returns.  A
    failure of [os.Stat] on the input file before the minimum-size gate, or
    on the output file after encoding, does not: [execute] panics with that
    error, after delivering a result whose [err] is nil. *)
Theorem failures_contained_except_stat P cfg j w :
  resCh j = [] ->
  (forall a0 e,
     filepath_Abs P (input j) = (a0, Some e) ->
     outcome (execute P cfg j w) = Next tt /\ err (result (execute P cfg j w)) = Some e) /\
  (forall a si w1 e,
     reaches_encode P cfg j w a si ->
     cwebp_Run P (quality j) a (spec_output_path P cfg a) w = (w1, Some e) ->
     outcome (execute P cfg j w) = Next tt /\ err (result (execute P cfg j w)) = Some e) /\
  (forall a si w1 so e,
     encoded P cfg j w a si w1 so ->
     ByteSize si < ByteSize so ->
     snd (os_Remove w1 (spec_output_path P cfg a)) = Some e ->
     outcome (execute P cfg j w) = Next tt /\ err (result (execute P cfg j w)) = Some e) /\
  (forall a e,
     filepath_Abs P (input j) = (a, None) -> ext_within_base P a -> gate_open P cfg w a ->
     os_Stat w a = inr e ->
     outcome (execute P cfg j w) = Panic (PanicError e) /\
     err (result (execute P cfg j w)) = None /\
     resCh (job_after (execute P cfg j w)) = [ChSend (result (execute P cfg j w)); ChClose]) /\
  (forall a si w1 e,
     reaches_encode P cfg j w a si ->
     cwebp_Run P (quality j) a (spec_output_path P cfg a) w = (w1, None) ->
     os_Stat w1 (spec_output_path P cfg a) = inr e ->
     outcome (execute P cfg j w) = Panic (PanicError e) /\
     err (result (execute P cfg j w)) = None /\
     resCh (job_after (execute P cfg j w)) = [ChSend (result (execute P cfg j w)); ChClose]).
Proof.
  intros Hfresh. repeat apply conj.
  - intros a0 e Habs. on_path P cfg j w Hfresh. split; reflexivity.
  - intros a si w1 e Henc Hrun. on_path P cfg j w Hfresh. split; reflexivity.
  - intros a si w1 so e Henc Hlt. unfold os_Remove.
    on_path P cfg j w Hfresh;
      match goal with H : files _ !! _ = Some _ |- _ => rewrite H end;
      (case_decide; [|]; try contradiction); cbn; intros; simplify_eq; split; reflexivity.
  - intros a e Habs Hext Hgate Hstat. unfold os_Stat in Hstat.
    destruct (files w !! a) eqn:Hin; simplify_eq.
    on_path P cfg j w Hfresh. repeat split.
  - intros a si w1 e Henc Hrun Hstat. unfold os_Stat in Hstat.
    destruct (files w1 !! spec_output_path P cfg a) eqn:Hin; simplify_eq.
    on_path P cfg j w Hfresh. repeat split.
Qed.

Lemma failures_contained_except_stat_witness :
  let P := Sample.unix None in
  let w := Sample.disk [("/photos/a.png", 51200)] in
  let x := execute P Sample.defaults (newJob "photos/a.png" 80) w in
  outcome x = Next tt /\
  err (result x) = Some (GetwdError "getwd: no such file or directory").
Proof.
  refine (proj1 (failures_contained_except_stat (Sample.unix None) Sample.defaults
                   (newJob "photos/a.png" 80) (Sample.disk [("/photos/a.png", 51200)]) _)
            "" (GetwdError "getwd: no such file or directory") _).
  - reflexivity.
  - reflexivity.
Defined.

(** Two runs of the pipeline on the sample platform: a 50 KiB image
    compressed at quality 80, and an output that grew and cannot be
    removed. *)
Example sample_conversion :
  let x := execute (Sample.unix (Some "/work")) Sample.defaults (newJob "/photos/a.png" 80)
             (Sample.disk [("/photos/a.png", 51200)]) in
  outcome x = Next tt /\
  result x = mk_result None 0x1.3ffffffffffffp+4%float false "/photos/a.webp" /\
  files (world_after x) !! "/photos/a.webp" = Some 40960 /\
  events x =
    [EvGoWaitForResult; EvStat "/photos/a.webp"; EvStat "/photos/a.png";
     EvEncode 80 "/photos/a.png" "/photos/a.webp"; EvStat "/photos/a.webp";
     LogDone "/photos/a.png" 51200 "/photos/a.webp" 40960 0x1.3ffffffffffffp+4%float].
Proof.
  cbv zeta. split; [vm_compute; reflexivity|]. split; [vm_compute; reflexivity|].
  split; vm_compute; reflexivity.
Qed.

Example sample_removal_refused :
  let w := {| files := list_to_map [("/photos/a.png", 20000)];
              undeletable := {["/photos/a.webp"]} |} in
  let x := execute (Sample.unix (Some "/work")) Sample.defaults (newJob "/photos/a.png" 150) w in
  outcome x = Next tt /\
  err (result x) = Some (PathError "remove" "/photos/a.webp" "operation not permitted") /\
  compression (result x) = (-50)%float /\
  files (world_after x) !! "/photos/a.webp" = Some 30000.
Proof.
  cbv zeta. split; [vm_compute; reflexivity|]. split; [vm_compute; reflexivity|].
  split; vm_compute; reflexivity.
Qed.

(** ** [execute] as a whole *)

(** X1.  The result says [exists] exactly when [replace] is unset, the input
    path resolved, and a file was found at the derived output path. *)
Theorem exists_flag_iff P cfg j w :
  resCh j = [] ->
  exists_ (result (execute P cfg j w)) = true <->
  replace cfg = false /\
  exists a sz, filepath_Abs P (input j) = (a, None) /\ ext_within_base P a /\
               files w !! spec_output_path P cfg a = Some sz.
Proof.
  intros Hfresh. split.
  - on_path P cfg j w Hfresh; cbn; intros Hex; try discriminate.
    split; [assumption|]. eauto.
  - intros (Hrep & a & sz & Habs & Hext & Hout).
    on_path P cfg j w Hfresh; try reflexivity; try contradiction.
Qed.

Lemma exists_flag_iff_witness :
  let w := Sample.disk [("/photos/a.png", 51200); ("/photos/a.webp", 30000)] in
  exists_ (result (execute (Sample.unix (Some "/work")) Sample.defaults
                     (newJob "/photos/a.png" 80) w)) = true.
Proof.
  apply (exists_flag_iff (Sample.unix (Some "/work")) Sample.defaults
           (newJob "/photos/a.png" 80)
           (Sample.disk [("/photos/a.png", 51200); ("/photos/a.webp", 30000)])).
  - reflexivity.
  - split; [reflexivity|]. exists "/photos/a.png", 30000.
    split; [reflexivity|]. split; [unfold ext_within_base; vm_compute; lia|].
    vm_compute. reflexivity.
Defined.

Ltac list_events :=
  unfold events, final, encode_events, sizing_events; cbn;
  rewrite ?List.filter_app; cbn;
  try match goal with |- context [replace ?cfg] => destruct (replace cfg) end; cbn.

(** X2.  An error that ends a job is never logged by [execute]: the line
    for a failed encoder run cannot be reached, and a job whose result
    carries an error has logged nothing, or only the warning that the
    output is bigger than the input. *)
Theorem errors_never_logged P cfg j w :
  resCh j = [] ->
  (forall e, ~ In (LogEncodeFailed e) (events (execute P cfg j w))) /\
  (forall e, err (result (execute P cfg j w)) = Some e ->
     List.filter is_log (events (execute P cfg j w)) = [] \/
     List.filter is_log (events (execute P cfg j w)) =
       [LogBigger (outputFile (result (execute P cfg j w)))
                  (input (job_after (execute P cfg j w)))]).
Proof.
  intros Hfresh.
  on_path P cfg j w Hfresh; list_events;
    (split;
     [ intros e0; rewrite ?in_app_iff; cbn; intuition discriminate
     | intros e0 He0; try discriminate; auto ]).
Qed.

Lemma errors_never_logged_witness :
  let x := execute (Sample.unix (Some "/work")) Sample.defaults (newJob "/photos/a.png" 150)
             {| files := list_to_map [("/photos/a.png", 20000)];
                undeletable := {["/photos/a.webp"]} |} in
  err (result x) = Some (PathError "remove" "/photos/a.webp" "operation not permitted") /\
  (List.filter is_log (events x) = [] \/
   List.filter is_log (events x) =
     [LogBigger (outputFile (result x)) (input (job_after x))]).
Proof.
  cbv zeta. split; [vm_compute; reflexivity|].
  refine (proj2 (errors_never_logged (Sample.unix (Some "/work")) Sample.defaults
                   (newJob "/photos/a.png" 150)
                   {| files := list_to_map [("/photos/a.png", 20000)];
                      undeletable := {["/photos/a.webp"]} |} _)
            (PathError "remove" "/photos/a.webp" "operation not permitted") _).
  - reflexivity.
  - vm_compute. reflexivity.
Defined.

(** X3.  [execute] changes the file system through at most two calls, in
    this order: one run of the encoder, with the job's quality, on the
    absolute input path and the result's output path, and after it one
    [os.Remove] of that output path. *)
Theorem mutations_target_output_only P cfg j w :
  resCh j = [] ->
  let x := execute P cfg j w in
  let enc := EvEncode (quality j) (input (job_after x)) (outputFile (result x)) in
  List.filter mutates (events x) = [] \/
  List.filter mutates (events x) = [enc] \/
  List.filter mutates (events x) = [enc; EvRemove (outputFile (result x))].
Proof.
  intros Hfresh. cbv zeta.
  on_path P cfg j w Hfresh; list_events; auto.
Qed.

Lemma mutations_target_output_only_witness :
  let x := execute (Sample.unix (Some "/work")) Sample.defaults (newJob "/photos/a.png" 150)
             (Sample.disk [("/photos/a.png", 20000)]) in
  List.filter mutates (events x) =
    [EvEncode 150 "/photos/a.png" "/photos/a.webp"; EvRemove "/photos/a.webp"] /\
  (List.filter mutates (events x) = [] \/
   List.filter mutates (events x) =
     [EvEncode 150 (input (job_after x)) (outputFile (result x))] \/
   List.filter mutates (events x) =
     [EvEncode 150 (input (job_after x)) (outputFile (result x));
      EvRemove (outputFile (result x))]).
Proof.
  cbv zeta. split; [vm_compute; reflexivity|].
  apply (mutations_target_output_only (Sample.unix (Some "/work")) Sample.defaults
           (newJob "/photos/a.png" 150) (Sample.disk [("/photos/a.png", 20000)])).
  reflexivity.
Defined.

(** X4.  Unless [execute] runs the encoder, it leaves the world as it found
    it and the result's [compression] at zero. *)
Theorem no_encoder_no_change P cfg j w :
  resCh j = [] ->
  List.filter mutates (events (execute P cfg j w)) = [] ->
  world_after (execute P cfg j w) = w /\
  compression (result (execute P cfg j w)) = 0%float.
Proof.
  intros Hfresh.
  on_path P cfg j w Hfresh; list_events; intros Hev; try discriminate; auto.
Qed.

Lemma no_encoder_no_change_witness :
  let w := Sample.disk [("/photos/icon.png", 5120)] in
  let x := execute (Sample.unix (Some "/work")) Sample.defaults (newJob "/photos/icon.png" 80) w in
  world_after x = w /\ compression (result x) = 0%float.
Proof.
  apply (no_encoder_no_change (Sample.unix (Some "/work")) Sample.defaults
           (newJob "/photos/icon.png" 80) (Sample.disk [("/photos/icon.png", 5120)])).
  - reflexivity.
  - vm_compute. reflexivity.
Defined.





(** X6.  A job that ran the encoder and ended without an error leaves
    either no file at the output path or one that is not larger than the
    input file. *)
Theorem no_oversized_output_left P cfg j w :
  resCh j = [] ->
  let x := execute P cfg j w in
  In (EvEncode (quality j) (input (job_after x)) (outputFile (result x))) (events x) ->
  err (result x) = None ->
  files (world_after x) !! outputFile (result x) = None \/
  exists so si,
    files (world_after x) !! outputFile (result x) = Some so /\
    files w !! input (job_after x) = Some si /\
    ByteSize so <= ByteSize si.
Proof.
  intros Hfresh. cbv zeta.
  on_path P cfg j w Hfresh; list_events; rewrite ?in_app_iff; cbn; intros Hin Herr;
    try discriminate;
    first [ solve [exfalso; intuition discriminate]
          | left; assumption
          | left; apply lookup_delete_eq
          | right; eauto ].
Qed.

Lemma no_oversized_output_left_witness :
  let w := Sample.disk [("/photos/a.png", 51200)] in
  let x := execute (Sample.unix (Some "/work")) Sample.defaults (newJob "/photos/a.png" 80) w in
  files (world_after x) !! outputFile (result x) = None \/
  exists so si,
    files (world_after x) !! outputFile (result x) = Some so /\
    files w !! input (job_after x) = Some si /\
    ByteSize so <= ByteSize si.
Proof.
  apply (no_oversized_output_left (Sample.unix (Some "/work")) Sample.defaults
           (newJob "/photos/a.png" 80) (Sample.disk [("/photos/a.png", 51200)])).
  - reflexivity.
  - vm_compute. tauto.
  - vm_compute. reflexivity.
Defined.

(** X7.  An output that was kept blocks later jobs for the same output
    path.  After a job has written an output file that was not larger than
    its input, a later job that derives the same output path (the same
    input again, at whatever quality, or another image with the same base
    name), run with [replace] unset, stops at the existence gate; it
    changes nothing and calls neither the encoder nor [os.Remove]. *)
Theorem second_run_skips P cfg j w a si w1 so j2 a2 :
  resCh j = [] -> resCh j2 = [] ->
  replace cfg = false ->
  encoded P cfg j w a si w1 so ->
  ByteSize so <= ByteSize si ->
  filepath_Abs P (input j2) = (a2, None) ->
  ext_within_base P a2 ->
  spec_output_path P cfg a2 = spec_output_path P cfg a ->
  let x := execute P cfg j w in
  let y := execute P cfg j2 (world_after x) in
  world_after x = w1 /\
  outcome y = Next tt /\
  result y = mk_result None 0 true (spec_output_path P cfg a) /\
  world_after y = world_after x /\
  List.filter mutates (events y) = [].
Proof.
  intros Hfresh Hfresh2 Hrep Henc Hle Habs2 Hext2 Hsame. cbv zeta.
  assert (Hw1 : world_after (execute P cfg j w) = w1).
  { on_path P cfg j w Hfresh; reflexivity. }
  rewrite Hw1. split; [reflexivity|].
  unfold encoded, reaches_encode, reaches_sizing in Henc. destruct_and?.
  on_path P cfg j2 w1 Hfresh2; cbn in *;
    repeat match goal with
           | H : spec_output_path _ _ ?x = spec_output_path _ _ _ |- _ =>
               rewrite H in *; clear H
           end;
    same_lhs; try (destruct_or?; congruence); try contradiction.
  repeat split.
Qed.

Lemma second_run_skips_witness :
  let w := Sample.disk [("/photos/a.png", 51200); ("/photos/a.jpg", 90000)] in
  let w1 := Sample.disk [("/photos/a.png", 51200); ("/photos/a.jpg", 90000);
                         ("/photos/a.webp", 40960)] in
  let x := execute (Sample.unix (Some "/work")) Sample.defaults (newJob "/photos/a.png" 80) w in
  let y := execute (Sample.unix (Some "/work")) Sample.defaults (newJob "/photos/a.jpg" 60)
             (world_after x) in
  world_after x = w1 /\
  outcome y = Next tt /\
  result y = mk_result None 0 true "/photos/a.webp" /\
  world_after y = world_after x /\
  List.filter mutates (events y) = [].
Proof.
  apply (second_run_skips (Sample.unix (Some "/work")) Sample.defaults
           (newJob "/photos/a.png" 80)
           (Sample.disk [("/photos/a.png", 51200); ("/photos/a.jpg", 90000)])
           "/photos/a.png" 51200
           (Sample.disk [("/photos/a.png", 51200); ("/photos/a.jpg", 90000);
                         ("/photos/a.webp", 40960)]) 40960
           (newJob "/photos/a.jpg" 60) "/photos/a.jpg").
  - reflexivity.
  - reflexivity.
  - reflexivity.
  - unfold encoded, reaches_encode, reaches_sizing, ext_within_base, gate_open.
    vm_compute. repeat split; try lia; try discriminate. right; reflexivity.
  - vm_compute. discriminate.
  - reflexivity.
  - unfold ext_within_base. vm_compute. lia.
  - vm_compute. reflexivity.
Defined.

(** X8.  Whatever path it takes, [execute] leaves the job's quality alone
    and overwrites the job's input with what [filepath.Abs] returned, also
    when [filepath.Abs] failed. *)
Theorem job_input_made_absolute P cfg j w :
  resCh j = [] ->
  input (job_after (execute P cfg j w)) = fst (filepath_Abs P (input j)) /\
  quality (job_after (execute P cfg j w)) = quality j.
Proof.
  intros Hfresh.
  on_path P cfg j w Hfresh; cbn;
    match goal with H : filepath_Abs _ _ = _ |- _ => rewrite H end; split; reflexivity.
Qed.

Lemma job_input_made_absolute_witness :
  let x := execute (Sample.unix None) Sample.defaults (newJob "photos/a.png" 80)
             (Sample.disk [("/photos/a.png", 51200)]) in
  input (job_after x) = "" /\ quality (job_after x) = 80.
Proof.
  apply (job_input_made_absolute (Sample.unix None) Sample.defaults
           (newJob "photos/a.png" 80) (Sample.disk [("/photos/a.png", 51200)])).
  reflexivity.
Defined.

(** ** The worker pool *)

Local Open Scope list_scope.

Lemma list_split_at {A} (l : list A) (i : nat) (a b : A) :
  l !! i = Some a ->
  l = take i l ++ a :: drop (S i) l /\ <[i := b]> l = take i l ++ b :: drop (S i) l.
Proof.
  intros Hl. split.
  - symmetry. now apply take_drop_middle.
  - apply insert_take_drop. eapply lookup_lt_Some; eauto.
Qed.

Lemma sum_list_with_insert {A} (f : A -> nat) (l : list A) (i : nat) (a b : A) :
  l !! i = Some a ->
  (sum_list_with f (<[i := b]> l) + f a = sum_list_with f l + f b)%nat.
Proof.
  intros Hl. destruct (list_split_at l i a b Hl) as [E1 E2].
  rewrite E2. rewrite E1 at 3. rewrite !sum_list_with_app. cbn. lia.
Qed.

Lemma in_flight_app (l k : list worker_state) :
  in_flight (l ++ k) = in_flight l ++ in_flight k.
Proof. unfold in_flight. apply flat_map_app. Qed.

Lemma in_flight_insert (ws : list worker_state) (i : nat) (a b : worker_state) :
  ws !! i = Some a ->
  in_flight (<[i := b]> ws) ++ flight a ≡ₚ in_flight ws ++ flight b.
Proof.
  intros Hl. destruct (list_split_at ws i a b Hl) as [E1 E2].
  rewrite E2. rewrite E1 at 3.
  rewrite !in_flight_app.
  change (in_flight (b :: drop (S i) ws)) with (flight b ++ in_flight (drop (S i) ws)).
  change (in_flight (a :: drop (S i) ws)) with (flight a ++ in_flight (drop (S i) ws)).
  solve_Permutation.
Qed.

Lemma in_flight_insert_idle (ws : list worker_state) (i : nat) (a b : worker_state) :
  ws !! i = Some a -> flight a = [] -> flight b = [] ->
  in_flight (<[i := b]> ws) = in_flight ws.
Proof.
  intros Hl Ha Hb. destruct (list_split_at ws i a b Hl) as [E1 E2].
  rewrite E2. rewrite E1 at 3. rewrite !in_flight_app.
  change (in_flight (b :: drop (S i) ws)) with (flight b ++ in_flight (drop (S i) ws)).
  change (in_flight (a :: drop (S i) ws)) with (flight a ++ in_flight (drop (S i) ws)).
  now rewrite Ha, Hb.
Qed.

Lemma in_flight_Forall (Q : job -> Prop) (ws : list worker_state) :
  Forall Q (in_flight ws) <-> Forall (fun x => Forall Q (flight x)) ws.
Proof.
  induction ws as [|x ws IH].
  - split; constructor.
  - change (in_flight (x :: ws)) with (flight x ++ in_flight ws).
    rewrite Forall_app, Forall_cons, IH. reflexivity.
Qed.

Lemma live_count_replicate (n : nat) : live_count (replicate n Waiting) = n.
Proof.
  induction n as [|n IH]; [reflexivity|].
  unfold live_count in *. cbn. now rewrite IH.
Qed.

Lemma in_flight_replicate (n : nat) : in_flight (replicate n Waiting) = [].
Proof. induction n as [|n IH]; [reflexivity | exact IH]. Qed.

Lemma live_count_zero (ws : list worker_state) :
  live_count ws = O <-> Forall (fun x => has_exited x = true) ws.
Proof.
  unfold live_count. induction ws as [|x ws IH]; cbn.
  - split; [constructor | reflexivity].
  - rewrite Forall_cons, <- IH. destruct (has_exited x); cbn.
    + split; [intros H; split; [reflexivity | exact H] | intros [_ H]; exact H].
    + split; [lia | intros [H _]; discriminate].
Qed.

(** A new pool satisfies the invariant. *)
Lemma newPool_inv (n : Z) (w : world) : pool_inv (newPool n w).
Proof.
  split; cbn.
  - now rewrite live_count_replicate.
  - congruence.
  - discriminate.
  - constructor.
  - rewrite in_flight_replicate. constructor.
  - constructor.
  - now rewrite in_flight_replicate.
Qed.

Lemma live_count_insert (ws : list worker_state) (i : nat) (a b : worker_state) :
  ws !! i = Some a ->
  (live_count (<[i := b]> ws) + (if has_exited a then 0 else 1)
   = live_count ws + (if has_exited b then 0 else 1))%nat.
Proof. apply sum_list_with_insert. Qed.

Lemma exited_no_live (ws : list worker_state) (i : nat) (a : worker_state) :
  Forall (fun x => has_exited x = true) ws -> ws !! i = Some a -> has_exited a = true.
Proof. intros Hall Hl. exact (Forall_lookup_1 _ _ _ _ Hall Hl). Qed.

Lemma in_flight_fresh_insert (ws : list worker_state) (i : nat) (b : worker_state) :
  Forall (fun j => resCh j = []) (in_flight ws) ->
  Forall (fun j => resCh j = []) (flight b) ->
  Forall (fun j => resCh j = []) (in_flight (<[i := b]> ws)).
Proof.
  rewrite !in_flight_Forall. intros Hall Hb. now apply Forall_insert.
Qed.

(** [execute] on a fresh job leaves it with one result on its channel. *)
Lemma execute_delivers_once P cfg j w :
  resCh j = [] -> delivered_once (job_after (execute P cfg j w)).
Proof.
  intros Hfresh. exists (result (execute P cfg j w)).
  on_path P cfg j w Hfresh; split; reflexivity.
Qed.

Lemma in_flight_lookup_fresh (ws : list worker_state) (i : nat) (j : job) :
  Forall (fun j => resCh j = []) (in_flight ws) ->
  ws !! i = Some (Executing j) -> resCh j = [].
Proof.
  rewrite in_flight_Forall. intros Hall Hl.
  pose proof (Forall_lookup_1 _ _ _ _ Hall Hl) as Hj. cbn in Hj.
  now inversion Hj.
Qed.

(** Every transition keeps the invariant. *)
Lemma pool_step_inv P cfg (l : label) (s s' : pool_state) :
  pool_step P cfg l s = Some s' -> pool_inv s -> pool_inv s'.
Proof.
  unfold pool_step. intros Hstep [Hwg Hcan Hret Hpend Hfl Hfin Hst].
  destruct (ps_crashed s) eqn:Hcr; [discriminate|].
  destruct l; repeat case_match; simplify_eq.
  all: split; cbn; try assumption; try congruence.
  all: try match goal with
       | H : ps_workers _ !! ?i = Some ?a
         |- ps_wg _ + _ = Z.of_nat (live_count (<[_ := ?b]> _)) =>
           pose proof (live_count_insert _ _ _ b H); cbn in *; lia
       | H : ps_workers _ !! ?i = Some ?a |- ps_wg _ = Z.of_nat (live_count (<[_ := ?b]> _)) =>
           pose proof (live_count_insert _ _ _ b H); cbn in *; lia
       | H : ps_workers _ !! ?i = Some ?a |- _ = Returned -> _ =>
           let Hr := fresh in
           intros Hr; specialize (Hret Hr);
           pose proof (exited_no_live _ _ _ Hret H); discriminate
       | H : ps_workers _ !! ?i = Some ?a |- Forall _ (in_flight (<[_ := _]> _)) =>
           apply in_flight_fresh_insert; [assumption | cbn; repeat constructor]
       | H : ps_workers _ !! ?i = Some ?a |- _ ≡ₚ _ ++ in_flight (<[_ := ?b]> _) =>
           try (rewrite (in_flight_insert_idle _ _ a b H) by reflexivity; assumption)
       end.
  - apply Forall_app. split; [assumption | repeat constructor].
  - now inversion Hpend.
  - now inversion Hpend.
  - pose proof (in_flight_insert _ _ _ (Executing j) H) as Hp. cbn in Hp.
    rewrite app_nil_r in Hp. rewrite Hp, Hst. now rewrite app_assoc.
  - apply Forall_app. split; [assumption|]. repeat constructor. cbn.
    apply execute_delivers_once. eapply in_flight_lookup_fresh; eauto.
  - pose proof (in_flight_insert _ _ _ Waiting H) as Hp. cbn in Hp.
    rewrite app_nil_r in Hp. rewrite map_app. cbn. rewrite Hst, <- Hp.
    solve_Permutation.
  - apply Forall_app. split; [assumption|]. repeat constructor. cbn.
    apply execute_delivers_once. eapply in_flight_lookup_fresh; eauto.
  - pose proof (in_flight_insert _ _ _ Waiting H) as Hp. cbn in Hp.
    rewrite app_nil_r in Hp. rewrite map_app. cbn. rewrite Hst, <- Hp.
    solve_Permutation.
  - apply Forall_app. split; [assumption|]. repeat constructor. cbn.
    apply execute_delivers_once. eapply in_flight_lookup_fresh; eauto.
  - pose proof (in_flight_insert _ _ _ (Unwinding v) H) as Hp. cbn in Hp.
    rewrite app_nil_r in Hp. rewrite map_app. cbn. rewrite Hst, <- Hp.
    solve_Permutation.
  - intros _. apply Hcan. congruence.
  - intros _. apply live_count_zero.
    match goal with H : (ps_wg s =? 0) = true |- _ => apply Z.eqb_eq in H; lia end.
Qed.

Lemma run_schedule_inv P cfg (sched : list label) (s s' : pool_state) :
  run_schedule P cfg sched s = Some s' -> pool_inv s -> pool_inv s'.
Proof.
  revert s. induction sched as [|l sched IH]; intros s Hrun Hinv; cbn in Hrun.
  - now simplify_eq.
  - destruct (pool_step P cfg l s) as [s1|] eqn:Hstep; [|discriminate].
    eapply IH; [exact Hrun|]. eapply pool_step_inv; eauto.
Qed.

Lemma reachable_inv P cfg n w (s : pool_state) :
  reachable P cfg n w s -> pool_inv s.
Proof.
  intros [sched Hrun]. eapply run_schedule_inv; [exact Hrun | apply newPool_inv].
Qed.

Lemma run_schedule_app P cfg (s1 s2 : list label) (s : pool_state) :
  run_schedule P cfg (s1 ++ s2) s =
    match run_schedule P cfg s1 s with
    | Some s' => run_schedule P cfg s2 s'
    | None => None
    end.
Proof.
  revert s. induction s1 as [|l s1 IH]; intros s; cbn; [reflexivity|].
  destruct (pool_step P cfg l s); [apply IH | reflexivity].
Qed.

(** Some worker has not finished, or all have. *)
Lemma workers_done_or_not (ws : list worker_state) :
  (exists i x, ws !! i = Some x /\ x <> Exited) \/ Forall (fun x => x = Exited) ws.
Proof.
  induction ws as [|x ws [(i & y & Hl & Hy) | Hall]].
  - right. constructor.
  - left. exists (S i), y. split; assumption.
  - destruct x; try (left; eexists O, _; split; [reflexivity | discriminate]).
    right. now constructor.
Qed.

(** Once [stop] has signalled cancellation, the pool can always run on
    until [stop] returns or the process dies of a panic: each worker
    finishes the job it has, if any, sees the cancellation, and calls
    [wg.Done]; jobs still offered on the queue hold nobody up. *)
Lemma stop_can_return P cfg (k : nat) (s : pool_state) :
  pool_inv s ->
  ps_stop s = Blocked -> ps_crashed s = None ->
  sum_list_with steps_left (ps_workers s) = k ->
  exists sched s',
    run_schedule P cfg sched s = Some s' /\
    ps_pending s' = ps_pending s /\
    (ps_stop s' = Returned \/ is_Some (ps_crashed s')).
Proof.
  revert s. induction (lt_wf k) as [k _ IH]. intros s Hinv Hstop Hcr Hk.
  destruct (workers_done_or_not (ps_workers s)) as [(i & x & Hl & Hx) | Hall].
  - assert (Hcan : ps_cancelled s = true) by (apply (inv_cancelled s Hinv); congruence).
    assert (Hnext : forall l s1 y,
              pool_step P cfg l s = Some s1 ->
              ps_workers s1 = <[i := y]> (ps_workers s) ->
              ps_stop s1 = Blocked -> ps_crashed s1 = None ->
              ps_pending s1 = ps_pending s ->
              (steps_left y < steps_left x)%nat ->
              exists sched s', run_schedule P cfg sched s = Some s' /\
                ps_pending s' = ps_pending s /\
                (ps_stop s' = Returned \/ is_Some (ps_crashed s'))).
    { intros l s1 y Hstep Hws Hstop1 Hcr1 Hpend1 Hlt.
      pose proof (sum_list_with_insert steps_left _ _ _ y Hl) as Hsum.
      destruct (IH (sum_list_with steps_left (ps_workers s1))) with (s := s1)
        as (sched & s' & Hrun & Hpend & Hend); try done.
      - rewrite Hws. lia.
      - eapply pool_step_inv; eauto.
      - exists (l :: sched), s'. cbn. rewrite Hstep. split; [exact Hrun|].
        split; [congruence | exact Hend]. }
    destruct x as [ | j | | | v | v ]; try congruence.
    + apply (Hnext (DoneEarly i) (set_worker i Leaving s) Leaving);
        try reflexivity; try assumption; [|cbn; lia].
      unfold pool_step. now rewrite Hcr, Hl, Hcan.
    + eapply (Hnext (Execute i) _
                (match outcome (execute P cfg j (ps_world s)) with
                 | Panic v => Unwinding v | _ => Waiting end)).
      * unfold pool_step. rewrite Hcr, Hl. reflexivity.
      * reflexivity.
      * exact Hstop.
      * reflexivity.
      * reflexivity.
      * destruct (outcome _); cbn; lia.
    + apply (Hnext (WgDone i) (wg_add (-1) (set_worker i Exited s)) Exited);
        try reflexivity; try assumption; [|cbn; lia].
      unfold pool_step. now rewrite Hcr, Hl.
    + apply (Hnext (WgDone i) (wg_add (-1) (set_worker i (Dead v) s)) (Dead v));
        try reflexivity; try assumption; [|cbn; lia].
      unfold pool_step. now rewrite Hcr, Hl.
    + eexists [Crash i], _. cbn. unfold pool_step. rewrite Hcr, Hl.
      split; [reflexivity|]. split; [reflexivity|]. right. cbn. eauto.
  - assert (Hwg : ps_wg s = 0).
    { rewrite (inv_wg s Hinv).
      assert (live_count (ps_workers s) = O); [|lia].
      apply live_count_zero. eapply Forall_impl; [exact Hall|]. now intros ? ->. }
    eexists [StopReturn], _. cbn. unfold pool_step. rewrite Hcr, Hstop, Hwg. cbn.
    split; [reflexivity|]. split; [reflexivity|]. now left.
Qed.

Lemma exited_not_in_flight (ws : list worker_state) :
  Forall (fun x => has_exited x = true) ws -> in_flight ws = [].
Proof.
  induction 1 as [|x ws Hx _ IH]; [reflexivity|].
  change (in_flight (x :: ws)) with (flight x ++ in_flight ws).
  rewrite IH. destruct x; try discriminate; reflexivity.
Qed.

(** C9.  In every state a pool can reach: once [stop] has been called the
    cancellation signal is set, for all workers at once; [stop] has
    returned only if every worker has called [wg.Done], and then no job is
    under way and the jobs that workers received are exactly the jobs that
    finished; at any time each job a worker received is either under way or
    finished, and each finished job has exactly one result on its channel,
    which is closed; and while [stop] is blocked the pool can run on, with
    whatever is under way or still offered on the queue, until [stop]
    returns (or a panic ends the process). *)
Theorem stop_waits_for_every_worker P cfg n w (s : pool_state) :
  reachable P cfg n w s ->
  (ps_stop s <> NotCalled -> ps_cancelled s = true) /\
  (ps_stop s = Returned ->
     Forall (fun x => has_exited x = true) (ps_workers s) /\
     in_flight (ps_workers s) = [] /\
     ps_started s ≡ₚ map fst (ps_finished s)) /\
  Forall (fun p => delivered_once (snd p)) (ps_finished s) /\
  ps_started s ≡ₚ map fst (ps_finished s) ++ in_flight (ps_workers s) /\
  (ps_stop s = Blocked -> ps_crashed s = None ->
     exists sched s',
       run_schedule P cfg sched s = Some s' /\
       ps_pending s' = ps_pending s /\
       (ps_stop s' = Returned \/ is_Some (ps_crashed s'))).
Proof.
  intros Hreach. pose proof (reachable_inv P cfg n w s Hreach) as Hinv.
  split; [apply (inv_cancelled s Hinv)|]. split.
  { intros Hret. pose proof (inv_stop_returned s Hinv Hret) as Hall.
    split; [exact Hall|]. pose proof (exited_not_in_flight _ Hall) as Hnone.
    split; [exact Hnone|]. pose proof (inv_started s Hinv) as Hst.
    now rewrite Hnone, app_nil_r in Hst. }
  split; [apply (inv_finished s Hinv)|]. split; [apply (inv_started s Hinv)|].
  intros Hstop Hcr. eapply stop_can_return; eauto.
Qed.

Lemma stop_waits_for_every_worker_witness :
  exists s,
    run_schedule (Sample.unix (Some "/work")) Sample.defaults
      [Offer "/photos/a.png" 80; Receive 0; Offer "/photos/b.png" 80; StopCall;
       Execute 0; DoneEarly 1; DoneEarly 0; WgDone 0; WgDone 1; StopReturn]
      (newPool 2 (Sample.disk [("/photos/a.png", 51200); ("/photos/b.png", 51200)]))
    = Some s /\
    ps_stop s = Returned /\
    ps_pending s = [newJob "/photos/b.png" 80] /\
    ps_workers s = [Exited; Exited] /\
    Forall (fun p => delivered_once (snd p)) (ps_finished s) /\
    ps_started s ≡ₚ map fst (ps_finished s).
Proof.
  eexists. split; [vm_compute; reflexivity|].
  split; [reflexivity|]. split; [reflexivity|]. split; [reflexivity|].
  match goal with
  | |- Forall _ (ps_finished ?s) /\ _ =>
      destruct (stop_waits_for_every_worker (Sample.unix (Some "/work")) Sample.defaults 2
                  (Sample.disk [("/photos/a.png", 51200); ("/photos/b.png", 51200)]) s)
        as (_ & Hret & Hfin & _)
  end.
  - exists [Offer "/photos/a.png" 80; Receive 0; Offer "/photos/b.png" 80; StopCall;
            Execute 0; DoneEarly 1; DoneEarly 0; WgDone 0; WgDone 1; StopReturn].
    vm_compute. reflexivity.
  - split; [exact Hfin|]. apply Hret. reflexivity.
Defined.

(** ** More about the pool *)

Lemma pool_step_queue P cfg (l : label) (s s' : pool_state) :
  pool_step P cfg l s = Some s' ->
  ps_started s' ++ ps_pending s' = ps_started s ++ ps_pending s ++ offered [l].
Proof.
  unfold pool_step. intros Hstep.
  destruct (ps_crashed s); [discriminate|].
  destruct l; repeat case_match; simplify_eq; cbn;
    rewrite ?app_nil_r, <- ?app_assoc; try reflexivity.
  all: match goal with H : ps_pending _ = _ |- _ => rewrite H end;
    rewrite ?app_nil_r; reflexivity.
Qed.

Lemma offered_app (s1 s2 : list label) : offered (s1 ++ s2) = offered s1 ++ offered s2.
Proof. unfold offered. apply flat_map_app. Qed.

Lemma run_schedule_queue P cfg (sched : list label) (s s' : pool_state) :
  run_schedule P cfg sched s = Some s' ->
  ps_started s' ++ ps_pending s' = ps_started s ++ ps_pending s ++ offered sched.
Proof.
  revert s. induction sched as [|l sched IH]; intros s Hrun; cbn in Hrun.
  - simplify_eq. cbn. now rewrite app_nil_r.
  - destruct (pool_step P cfg l s) as [s1|] eqn:Hstep; [|discriminate].
    rewrite (IH s1 Hrun), app_assoc, (pool_step_queue P cfg l s s1 Hstep).
    change (l :: sched) with ([l] ++ sched). rewrite offered_app.
    now rewrite <- !app_assoc.
Qed.



Lemma newPool_wait_inv (n : Z) (w : world) : wait_inv (newPool n w).
Proof. split; cbn; congruence. Qed.

Lemma pool_step_wait_inv P cfg (l : label) (s s' : pool_state) :
  pool_step P cfg l s = Some s' -> pool_inv s -> wait_inv s -> wait_inv s'.
Proof.
  unfold pool_step. intros Hstep Hinv [Hcl Hdr Hret].
  destruct (ps_crashed s) eqn:Hcr; [discriminate|].
  destruct l; repeat case_match; simplify_eq.
  all: split; cbn; try assumption; try congruence.
  all: try match goal with
       | H : ps_workers _ !! ?i = Some ?a |- _ = Returned -> _ =>
           let Hr := fresh in
           intros Hr; specialize (Hret Hr);
           pose proof (exited_no_live _ _ _ Hret H); discriminate
       end.
  all: try (let Hx := fresh in intros Hx; specialize (Hdr Hx); congruence).
  all: try (let Hx := fresh in intros Hx; specialize (Hcl Hx); congruence).
  all: try (intros _; apply Hcl; congruence).
  intros _. apply live_count_zero.
    pose proof (inv_wg s Hinv).
    match goal with H : (ps_wg s =? 0) = true |- _ => apply Z.eqb_eq in H; lia end.
Qed.

Lemma run_schedule_wait_inv P cfg (sched : list label) (s s' : pool_state) :
  run_schedule P cfg sched s = Some s' -> pool_inv s -> wait_inv s -> wait_inv s'.
Proof.
  revert s. induction sched as [|l sched IH]; intros s Hrun Hinv Hw; cbn in Hrun.
  - now simplify_eq.
  - destruct (pool_step P cfg l s) as [s1|] eqn:Hstep; [|discriminate].
    eapply IH; [exact Hrun | eapply pool_step_inv; eauto | eapply pool_step_wait_inv; eauto].
Qed.

(** A pool whose [wait] has returned has nothing left to do. *)
Lemma wait_returned_drained (s : pool_state) :
  pool_inv s -> wait_inv s -> ps_wait s = Returned ->
  Forall (fun x => has_exited x = true) (ps_workers s) /\
  ps_pending s = [] /\
  in_flight (ps_workers s) = [] /\
  ps_started s ≡ₚ map fst (ps_finished s).
Proof.
  intros Hinv Hw Hret.
  pose proof (winv_returned s Hw Hret) as Hall.
  assert (Hpend : ps_pending s = []).
  { apply (winv_drained s Hw), (winv_closed s Hw). congruence. }
  pose proof (exited_not_in_flight _ Hall) as Hnone.
  pose proof (inv_started s Hinv) as Hst. rewrite Hnone, app_nil_r in Hst.
  repeat apply conj; assumption.
Qed.

(** X10.  When [wait] returns, the pool is drained: every worker has called
    [wg.Done], nothing is left on the queue or under way, and the jobs that
    were offered are, in order, the jobs workers received, each finished
    with exactly one result on its closed channel. *)
Theorem wait_returns_after_drain P cfg n w (sched : list label) (s : pool_state) :
  run_schedule P cfg sched (newPool n w) = Some s ->
  ps_wait s = Returned ->
  Forall (fun x => has_exited x = true) (ps_workers s) /\
  ps_pending s = [] /\
  in_flight (ps_workers s) = [] /\
  ps_started s = offered sched /\
  map fst (ps_finished s) ≡ₚ offered sched /\
  Forall (fun p => delivered_once (snd p)) (ps_finished s).
Proof.
  intros Hrun Hret.
  pose proof (run_schedule_inv P cfg sched _ s Hrun (newPool_inv n w)) as Hinv.
  pose proof (run_schedule_wait_inv P cfg sched _ s Hrun (newPool_inv n w)
                (newPool_wait_inv n w)) as Hw.
  destruct (wait_returned_drained s Hinv Hw Hret) as (Hall & Hpend & Hnone & Hst).
  pose proof (run_schedule_queue P cfg sched _ s Hrun) as Hq.
  rewrite Hpend, app_nil_r in Hq. cbn in Hq.
  repeat apply conj; try assumption.
  - now rewrite <- Hq, Hst.
  - apply (inv_finished s Hinv).
Qed.

Lemma wait_returns_after_drain_witness :
  exists s,
    run_schedule (Sample.unix (Some "/work")) Sample.defaults
      [Offer "/photos/a.png" 80; Receive 0; Offer "/photos/b.png" 80; Receive 1;
       Execute 1; WaitCall; NoMoreWork 1; Execute 0; NoMoreWork 0;
       WgDone 0; WgDone 1; WaitReturn]
      (newPool 2 (Sample.disk [("/photos/a.png", 51200); ("/photos/b.png", 51200)]))
    = Some s /\
    ps_wait s = Returned /\
    ps_started s = [newJob "/photos/a.png" 80; newJob "/photos/b.png" 80] /\
    map fst (ps_finished s) ≡ₚ [newJob "/photos/a.png" 80; newJob "/photos/b.png" 80] /\
    Forall (fun p => delivered_once (snd p)) (ps_finished s).
Proof.
  eexists. split; [vm_compute; reflexivity|].
  split; [vm_compute; reflexivity|].
  match goal with
  | |- ps_started ?s = _ /\ _ =>
      destruct (wait_returns_after_drain (Sample.unix (Some "/work")) Sample.defaults 2
                  (Sample.disk [("/photos/a.png", 51200); ("/photos/b.png", 51200)])
                  [Offer "/photos/a.png" 80; Receive 0; Offer "/photos/b.png" 80; Receive 1;
                   Execute 1; WaitCall; NoMoreWork 1; Execute 0; NoMoreWork 0;
                   WgDone 0; WgDone 1; WaitReturn] s)
        as (_ & _ & _ & Hst & Hfin & Hdel)
  end.
  - vm_compute. reflexivity.
  - vm_compute. reflexivity.
  - split; [exact Hst|]. split; [exact Hfin|]. exact Hdel.
Defined.



Lemma pool_step_workers_length P cfg (l : label) (s s' : pool_state) :
  pool_step P cfg l s = Some s' -> length (ps_workers s') = length (ps_workers s).
Proof.
  unfold pool_step. intros Hstep.
  destruct (ps_crashed s); [discriminate|].
  destruct l; repeat case_match; simplify_eq; cbn; rewrite ?length_insert; reflexivity.
Qed.

Lemma run_schedule_workers_length P cfg (sched : list label) (s s' : pool_state) :
  run_schedule P cfg sched s = Some s' -> length (ps_workers s') = length (ps_workers s).
Proof.
  revert s. induction sched as [|l sched IH]; intros s Hrun; cbn in Hrun.
  - now simplify_eq.
  - destruct (pool_step P cfg l s) as [s1|] eqn:Hstep; [|discriminate].
    rewrite (IH s1 Hrun). eapply pool_step_workers_length; eauto.
Qed.

Lemma live_count_le_length (ws : list worker_state) : (live_count ws <= length ws)%nat.
Proof.
  unfold live_count. induction ws as [|x ws IH]; cbn; [lia|].
  destruct (has_exited x); lia.
Qed.

Lemma in_flight_le_live (ws : list worker_state) :
  (length (in_flight ws) <= live_count ws)%nat.
Proof.
  unfold in_flight, live_count. induction ws as [|x ws IH]; cbn; [lia|].
  rewrite length_app. destruct x; cbn; lia.
Qed.

(** X12.  The wait group's counter is never negative and never above the
    number of workers [start] created, so no [wg.Done] can panic; the pool
    keeps the number of workers it started with, and never has more calls
    of [execute] under way than the counter says: at most one per worker. *)
Theorem wait_group_counter_in_range P cfg n w (s : pool_state) :
  reachable P cfg n w s ->
  0 <= ps_wg s <= Z.max n 0 /\
  Z.of_nat (length (ps_workers s)) = Z.max n 0 /\
  Z.of_nat (length (in_flight (ps_workers s))) <= ps_wg s.
Proof.
  intros Hreach. pose proof (reachable_inv P cfg n w s Hreach) as Hinv.
  destruct Hreach as [sched Hrun].
  pose proof (run_schedule_workers_length P cfg sched _ s Hrun) as Hlen.
  cbn in Hlen. rewrite length_replicate in Hlen.
  pose proof (live_count_le_length (ps_workers s)).
  pose proof (in_flight_le_live (ps_workers s)).
  rewrite (inv_wg s Hinv). lia.
Qed.

Lemma wait_group_counter_in_range_witness :
  exists s,
    run_schedule (Sample.unix (Some "/work")) Sample.defaults
      [Offer "/photos/a.png" 80; Receive 0; StopCall; DoneEarly 1; WgDone 1]
      (newPool 2 (Sample.disk [("/photos/a.png", 51200)])) = Some s /\
    ps_wg s = 1 /\
    0 <= ps_wg s <= Z.max 2 0 /\
    Z.of_nat (length (ps_workers s)) = Z.max 2 0 /\
    Z.of_nat (length (in_flight (ps_workers s))) <= ps_wg s.
Proof.
  eexists. split; [vm_compute; reflexivity|].
  split; [reflexivity|].
  apply (wait_group_counter_in_range (Sample.unix (Some "/work")) Sample.defaults 2
           (Sample.disk [("/photos/a.png", 51200)])).
  exists [Offer "/photos/a.png" 80; Receive 0; StopCall; DoneEarly 1; WgDone 1].
  vm_compute. reflexivity.
Defined.

(** X13.  A pool created with no workers (a worker count of zero or below)
    never starts a job: whatever is offered stays on the queue, nothing is
    executed and the world stays as it was; and once a job has been
    offered, [wait] is never reached, since the send of that job never
    completes. *)
Theorem no_workers_no_jobs P cfg n w (sched : list label) (s : pool_state) :
  n <= 0 ->
  run_schedule P cfg sched (newPool n w) = Some s ->
  ps_workers s = [] /\ ps_started s = [] /\ ps_finished s = [] /\
  ps_pending s = offered sched /\ ps_world s = w /\
  (offered sched <> [] -> ps_wait s = NotCalled).
Proof.
  intros Hn Hrun.
  assert (Hgen : forall sched s0 s,
            run_schedule P cfg sched s0 = Some s -> ps_workers s0 = [] ->
            ps_workers s = [] /\ ps_started s = ps_started s0 /\
            ps_finished s = ps_finished s0 /\ ps_world s = ps_world s0).
  { clear. induction sched as [|l sched IH]; intros s0 s Hrun Hws; cbn in Hrun.
    - simplify_eq. done.
    - destruct (pool_step P cfg l s0) as [s1|] eqn:Hstep; [|discriminate].
      unfold pool_step in Hstep. rewrite Hws in Hstep.
      destruct (ps_crashed s0); [discriminate|].
      destruct l; cbn in Hstep; repeat case_match; simplify_eq;
        destruct (IH _ _ Hrun) as (? & ? & ? & ?); try done. }
  destruct (Hgen sched _ s Hrun) as (Hws & Hst & Hfin & Hw).
  { cbn. replace (Z.to_nat n) with O by lia. reflexivity. }
  pose proof (run_schedule_queue P cfg sched _ s Hrun) as Hq.
  rewrite Hst in Hq. cbn in Hq, Hst, Hfin, Hw.
  pose proof (run_schedule_wait_inv P cfg sched _ s Hrun (newPool_inv n w)
                (newPool_wait_inv n w)) as Hwi.
  repeat apply conj; try assumption.
  intros Hsome. destruct (ps_wait s) eqn:Hwait; [reflexivity | exfalso ..];
    apply Hsome; rewrite <- Hq;
    apply (winv_drained s Hwi), (winv_closed s Hwi); congruence.
Qed.

Lemma no_workers_no_jobs_witness :
  exists s,
    run_schedule (Sample.unix (Some "/work")) Sample.defaults
      [Offer "/photos/a.png" 80; StopCall; StopReturn]
      (newPool 0 (Sample.disk [("/photos/a.png", 51200)])) = Some s /\
    ps_workers s = [] /\ ps_started s = [] /\ ps_finished s = [] /\
    ps_pending s = [newJob "/photos/a.png" 80] /\
    ps_world s = Sample.disk [("/photos/a.png", 51200)] /\
    ps_wait s = NotCalled.
Proof.
  eexists. split; [vm_compute; reflexivity|].
  match goal with
  | |- ps_workers ?s = _ /\ _ =>
      destruct (no_workers_no_jobs (Sample.unix (Some "/work")) Sample.defaults 0
                  (Sample.disk [("/photos/a.png", 51200)])
                  [Offer "/photos/a.png" 80; StopCall; StopReturn] s)
        as (Hws & Hst & Hfin & Hpend & Hw & Hwait)
  end.
  - lia.
  - vm_compute. reflexivity.
  - split; [exact Hws|]. split; [exact Hst|]. split; [exact Hfin|].
    split; [exact Hpend|]. split; [exact Hw|]. apply Hwait. discriminate.
Defined.

(** In a dry run [execute] leaves the world as it found it. *)
Lemma execute_dry_run_world P cfg j w :
  resCh j = [] -> dryRun cfg = true -> world_after (execute P cfg j w) = w.
Proof. intros Hfresh Hdry. on_path P cfg j w Hfresh; reflexivity. Qed.

(** X14.  With the dry-run flag set, no schedule of the pool changes the
    world: however many jobs are offered, received and executed, the file
    system stays as it was when the pool was created. *)
Theorem dry_run_pool_leaves_world P cfg n w (s : pool_state) :
  dryRun cfg = true ->
  reachable P cfg n w s ->
  ps_world s = w.
Proof.
  intros Hdry [sched Hrun].
  assert (Hgen : forall sched s0 s,
            run_schedule P cfg sched s0 = Some s -> pool_inv s0 ->
            ps_world s = ps_world s0).
  { clear - Hdry. induction sched as [|l sched IH]; intros s0 s Hrun Hinv; cbn in Hrun.
    - now simplify_eq.
    - destruct (pool_step P cfg l s0) as [s1|] eqn:Hstep; [|discriminate].
      rewrite (IH s1 s Hrun) by (eapply pool_step_inv; eauto).
      unfold pool_step in Hstep. destruct (ps_crashed s0); [discriminate|].
      destruct l; repeat case_match; simplify_eq; try reflexivity.
      all: cbn; apply execute_dry_run_world; [|exact Hdry].
      all: eapply in_flight_lookup_fresh;
        [apply (inv_in_flight_fresh s0 Hinv) | eassumption]. }
  now rewrite (Hgen sched _ s Hrun (newPool_inv n w)).
Qed.

Lemma dry_run_pool_leaves_world_witness :
  let cfg := {| replace := false; dryRun := true; prependToName := ""; appendToName := "";
                minFileSize := 10240 |} in
  exists s,
    run_schedule (Sample.unix (Some "/work")) cfg
      [Offer "/photos/a.png" 80; Receive 0; Execute 0]
      (newPool 2 (Sample.disk [("/photos/a.png", 51200)])) = Some s /\
    ps_started s = [newJob "/photos/a.png" 80] /\
    ps_world s = Sample.disk [("/photos/a.png", 51200)].
Proof.
  cbv zeta. eexists. split; [vm_compute; reflexivity|].
  split; [vm_compute; reflexivity|].
  apply (dry_run_pool_leaves_world (Sample.unix (Some "/work"))
           {| replace := false; dryRun := true; prependToName := ""; appendToName := "";
              minFileSize := 10240 |} 2).
  - reflexivity.
  - exists [Offer "/photos/a.png" 80; Receive 0; Execute 0]. vm_compute. reflexivity.
Defined.

Lemma newPool_loop_inv (n : Z) (w : world) : loop_inv (newPool n w).
Proof.
  intros _ _. cbn. apply Forall_replicate. split; discriminate.
Qed.

Lemma pool_step_loop_inv P cfg (l : label) (s s' : pool_state) :
  pool_step P cfg l s = Some s' -> loop_inv s -> loop_inv s'.
Proof.
  unfold pool_step, loop_inv. intros Hstep Hinv.
  destruct (ps_crashed s); [discriminate|].
  destruct l; repeat case_match; simplify_eq; cbn; intros Hcl Hca;
    try congruence; try (apply Hinv; assumption);
    try (apply Forall_insert; [apply Hinv; assumption | split; discriminate]).
  all: exfalso; specialize (Hinv Hcl Hca);
    match goal with
    | H : ps_workers _ !! _ = Some Leaving |- _ =>
        destruct (proj1 (Forall_lookup _ _) Hinv _ _ H) as [Hne _]; congruence
    end.
Qed.

Lemma run_schedule_loop_inv P cfg (sched : list label) (s s' : pool_state) :
  run_schedule P cfg sched s = Some s' -> loop_inv s -> loop_inv s'.
Proof.
  revert s. induction sched as [|l sched IH]; intros s Hrun Hinv; cbn in Hrun.
  - now simplify_eq.
  - destruct (pool_step P cfg l s) as [s1|] eqn:Hstep; [|discriminate].
    eapply IH; [exact Hrun | eapply pool_step_loop_inv; eauto].
Qed.

(** X15.  With at least one worker, a send on [p.jobs] gets through: as long
    as the queue is open and nothing is cancelled, the pool can run on,
    without new offers, until every job offered so far has been received
    by a worker, unless the process dies of a panic first. *)
Theorem sends_can_complete P cfg n w (sched : list label) (s : pool_state) :
  0 < n ->
  run_schedule P cfg sched (newPool n w) = Some s ->
  ps_jobs_closed s = false -> ps_cancelled s = false -> ps_crashed s = None ->
  exists rest s',
    run_schedule P cfg (sched ++ rest) (newPool n w) = Some s' /\
    offered rest = [] /\
    (ps_started s' = offered sched /\ ps_pending s' = [] \/ is_Some (ps_crashed s')).
Proof.
  intros Hn Hrun Hcl Hca Hcr.
  pose proof (run_schedule_loop_inv P cfg sched _ s Hrun (newPool_loop_inv n w)) as Hloop.
  pose proof (run_schedule_workers_length P cfg sched _ s Hrun) as Hlen.
  cbn in Hlen. rewrite length_replicate in Hlen.
  cut (exists rest s', run_schedule P cfg rest s = Some s' /\ offered rest = [] /\
                       (ps_pending s' = [] \/ is_Some (ps_crashed s'))).
  { intros (rest & s' & Hrest & Hoff & Hend). exists rest, s'.
    assert (Hall : run_schedule P cfg (sched ++ rest) (newPool n w) = Some s')
      by now rewrite run_schedule_app, Hrun.
    split; [exact Hall|]. split; [exact Hoff|].
    destruct Hend as [Hpend | Hdead]; [left | now right].
    pose proof (run_schedule_queue P cfg _ _ s' Hall) as Hq.
    rewrite Hpend, offered_app, Hoff, !app_nil_r in Hq. cbn in Hq. now split. }
  clear Hrun.
  remember (ps_pending s) as pend eqn:Hpend.
  revert s Hcl Hca Hcr Hloop Hlen Hpend.
  induction pend as [|j pend IH]; intros s Hcl Hca Hcr Hloop Hlen Hpend.
  { exists [], s. cbn. split; [reflexivity|]. split; [reflexivity|]. now left. }
  assert (Hws : exists x, ps_workers s !! 0%nat = Some x).
  { apply lookup_lt_is_Some. lia. }
  destruct Hws as [x Hl]. symmetry in Hpend.
  assert (Hin : in_loop x).
  { exact (proj1 (Forall_lookup _ _) (Hloop Hcl Hca) _ _ Hl). }
  assert (Hreceive : forall s0,
            ps_workers s0 !! 0%nat = Some Waiting -> ps_pending s0 = j :: pend ->
            ps_jobs_closed s0 = false -> ps_cancelled s0 = false -> ps_crashed s0 = None ->
            loop_inv s0 -> length (ps_workers s0) = Z.to_nat n ->
            exists rest s', run_schedule P cfg rest s0 = Some s' /\ offered rest = [] /\
                            (ps_pending s' = [] \/ is_Some (ps_crashed s'))).
  { intros s0 Hl0 Hp0 Hcl0 Hca0 Hcr0 Hloop0 Hlen0.
    assert (Hstep : pool_step P cfg (Receive 0) s0 =
                    Some {| ps_world := ps_world s0; ps_pending := pend;
                            ps_jobs_closed := ps_jobs_closed s0;
                            ps_cancelled := ps_cancelled s0; ps_wg := ps_wg s0;
                            ps_workers := <[0%nat := Executing j]> (ps_workers s0);
                            ps_started := ps_started s0 ++ [j];
                            ps_finished := ps_finished s0;
                            ps_wait := ps_wait s0; ps_stop := ps_stop s0;
                            ps_crashed := None |}).
    { unfold pool_step. now rewrite Hcr0, Hl0, Hp0. }
    match type of Hstep with
    | _ = Some ?s1 => destruct (IH s1) as (rest & s' & Hrest & Hoff & Hend)
    end;
      [ assumption | assumption | reflexivity
      | exact (pool_step_loop_inv _ _ _ _ _ Hstep Hloop0)
      | cbn; now rewrite length_insert
      | reflexivity
      | ].
    exists (Receive 0 :: rest), s'. cbn. rewrite Hstep. now split. }
  assert (Hdie : forall s0 v,
            ps_workers s0 !! 0%nat = Some (Unwinding v) -> ps_crashed s0 = None ->
            exists rest s', run_schedule P cfg rest s0 = Some s' /\ offered rest = [] /\
                            (ps_pending s' = [] \/ is_Some (ps_crashed s'))).
  { intros s0 v Hl0 Hcr0.
    assert (H1 : pool_step P cfg (WgDone 0) s0
                 = Some (wg_add (-1) (set_worker 0 (Dead v) s0))).
    { unfold pool_step. now rewrite Hcr0, Hl0. }
    assert (H2 : exists s2,
               pool_step P cfg (Crash 0) (wg_add (-1) (set_worker 0 (Dead v) s0)) = Some s2 /\
               is_Some (ps_crashed s2)).
    { unfold pool_step. cbn. rewrite Hcr0.
      rewrite list_lookup_insert_eq by (eapply lookup_lt_Some; eauto).
      eexists. split; [reflexivity|]. cbn. eauto. }
    destruct H2 as (s2 & H3 & H2).
    exists [WgDone 0; Crash 0], s2. cbn [run_schedule]. rewrite H1, H3.
    split; [reflexivity|]. split; [reflexivity|]. now right. }
  destruct x as [ | j0 | | | v | v ].
  - apply (Hreceive s); auto.
  - pose (x := execute P cfg j0 (ps_world s)).
    assert (Hstep : pool_step P cfg (Execute 0) s =
              Some {| ps_world := world_after x; ps_pending := ps_pending s;
                      ps_jobs_closed := ps_jobs_closed s; ps_cancelled := ps_cancelled s;
                      ps_wg := ps_wg s;
                      ps_workers :=
                        <[0%nat := match outcome x with Panic v => Unwinding v | _ => Waiting end]>
                          (ps_workers s);
                      ps_started := ps_started s;
                      ps_finished := ps_finished s ++ [(j0, job_after x)];
                      ps_wait := ps_wait s; ps_stop := ps_stop s; ps_crashed := None |}).
    { unfold pool_step. now rewrite Hcr, Hl. }
    assert (Hlt : (0 < length (ps_workers s))%nat) by (eapply lookup_lt_Some; eauto).
    match type of Hstep with _ = Some ?s1 =>
      assert (Hnext : exists rest s', run_schedule P cfg rest s1 = Some s' /\
                        offered rest = [] /\
                        (ps_pending s' = [] \/ is_Some (ps_crashed s')))
    end.
    { destruct (outcome x) eqn:Hout.
      1,2: apply Hreceive; cbn; auto;
        [ now rewrite list_lookup_insert_eq
        | exact (pool_step_loop_inv _ _ _ _ _ Hstep Hloop)
        | now rewrite length_insert ].
      eapply Hdie; cbn; [now rewrite list_lookup_insert_eq | reflexivity]. }
    destruct Hnext as (rest & s' & Hrest & Hoff & Hend).
    exists (Execute 0 :: rest), s'. cbn. rewrite Hstep. now split.
  - destruct Hin as [Hin _]. congruence.
  - destruct Hin as [_ Hin]. congruence.
  - eapply Hdie; eauto.
  - eexists [Crash 0], _. cbn. unfold pool_step. rewrite Hcr, Hl.
    split; [reflexivity|]. split; [reflexivity|]. right. cbn. eauto.
Qed.

Lemma sends_can_complete_witness :
  exists rest s',
    run_schedule (Sample.unix (Some "/work")) Sample.defaults
      ([Offer "/photos/a.png" 80; Offer "/photos/b.png" 80] ++ rest)
      (newPool 1 (Sample.disk [("/photos/a.png", 51200); ("/photos/b.png", 51200)]))
    = Some s' /\
    offered rest = [] /\
    (ps_started s' = offered [Offer "/photos/a.png" 80; Offer "/photos/b.png" 80] /\
     ps_pending s' = [] \/ is_Some (ps_crashed s')).
Proof.
  eapply (sends_can_complete (Sample.unix (Some "/work")) Sample.defaults 1
            (Sample.disk [("/photos/a.png", 51200); ("/photos/b.png", 51200)])
            [Offer "/photos/a.png" 80; Offer "/photos/b.png" 80]).
  - lia.
  - vm_compute. reflexivity.
  - reflexivity.
  - reflexivity.
  - reflexivity.
Defined.

(** X16.  After [wait] has returned, the deferred [stop] has nothing to wait
    for: [p.done()] and [p.wg.Wait()] go through at once, and change
    neither the world nor what the workers have done. *)
Theorem deferred_stop_returns_at_once P cfg n w (sched : list label) (s : pool_state) :
  run_schedule P cfg sched (newPool n w) = Some s ->
  ps_wait s = Returned -> ps_stop s = NotCalled -> ps_crashed s = None ->
  exists s',
    run_schedule P cfg (sched ++ [StopCall; StopReturn]) (newPool n w) = Some s' /\
    ps_stop s' = Returned /\
    ps_world s' = ps_world s /\ ps_finished s' = ps_finished s /\
    ps_workers s' = ps_workers s.
Proof.
  intros Hrun Hwait Hstop Hcr.
  pose proof (run_schedule_inv P cfg sched _ s Hrun (newPool_inv n w)) as Hinv.
  pose proof (run_schedule_wait_inv P cfg sched _ s Hrun (newPool_inv n w)
                (newPool_wait_inv n w)) as Hw.
  assert (Hwg : ps_wg s = 0).
  { rewrite (inv_wg s Hinv), (proj2 (live_count_zero _) (winv_returned s Hw Hwait)).
    reflexivity. }
  eexists. rewrite run_schedule_app, Hrun. cbn. unfold pool_step. cbn.
  rewrite Hcr, Hstop, Hwg. cbn. repeat split.
Qed.

Lemma deferred_stop_returns_at_once_witness :
  exists s',
    run_schedule (Sample.unix (Some "/work")) Sample.defaults
      ([Offer "/photos/a.png" 80; Receive 0; Execute 0; WaitCall; NoMoreWork 0;
        WgDone 0; WaitReturn] ++ [StopCall; StopReturn])
      (newPool 1 (Sample.disk [("/photos/a.png", 51200)])) = Some s' /\
    ps_stop s' = Returned.
Proof.
  destruct (run_schedule (Sample.unix (Some "/work")) Sample.defaults
              [Offer "/photos/a.png" 80; Receive 0; Execute 0; WaitCall; NoMoreWork 0;
               WgDone 0; WaitReturn]
              (newPool 1 (Sample.disk [("/photos/a.png", 51200)]))) as [s|] eqn:Hrun;
    [|vm_compute in Hrun; discriminate].
  assert (Hs := Hrun). vm_compute in Hs. injection Hs as <-.
  destruct (deferred_stop_returns_at_once _ _ _ _ _ _ Hrun) as (s' & Hall & Hstop & _).
  - reflexivity.
  - reflexivity.
  - reflexivity.
  - exists s'. split; [exact Hall | exact Hstop].
Defined.









(** ** The file-name filter *)

Lemma lower_length (s : string) : String.length (lower s) = String.length s.
Proof. induction s as [|a s IH]; cbn; [reflexivity | now rewrite IH]. Qed.

Lemma lower_app (s t : string) : lower (s ++ t) = (lower s ++ lower t)%string.
Proof.
  induction s as [|a s IH]; [reflexivity|].
  change (String (to_lower a) (lower (s ++ t)) = String (to_lower a) (lower s ++ lower t)).
  now rewrite IH.
Qed.

Ltac lower_consts :=
  repeat match goal with
         | |- context [to_lower (Ascii ?a ?b ?c ?d ?e ?f ?g ?h)] =>
             let v := eval vm_compute in (to_lower (Ascii a b c d e f g h)) in
             change (to_lower (Ascii a b c d e f g h)) with v
         end.

(** Matched from its first byte, a name is accepted exactly when it is one
    of the three extensions, in any mix of cases. *)
Lemma imageRe_here (t : string) :
  match_here imageRe t (fun _ => true) = true <->
  lower t = ".jpg" \/ lower t = ".jpeg" \/ lower t = ".png".
Proof.
  destruct t as [|a1 [|a2 [|a3 [|a4 [|a5 [|a6 t]]]]]]; cbn; lower_consts;
    repeat match goal with
           | |- context [Ascii.eqb (to_lower ?a) ?c] =>
               is_var a; destruct (Ascii.eqb_spec (to_lower a) c) as [->|?]; cbn
           end;
    (split; [ intros H; try discriminate; auto
            | intros [H | [H | H]]; simplify_eq; try congruence; auto ]).
Qed.

Lemma MatchString_somewhere (re : regex) (s : string) :
  MatchString re s = true <->
  exists stem t, s = (stem ++ t)%string /\ match_here re t (fun _ => true) = true.
Proof.
  induction s as [|a s IH].
  - cbn. rewrite orb_false_r. split.
    + intros H. exists "", "". split; [reflexivity | exact H].
    + intros (stem & t & Hs & H).
      destruct stem; [|discriminate]. change ("" = t) in Hs. now subst t.
  - change (MatchString re (String a s))
      with (match_here re (String a s) (fun _ => true) || MatchString re s).
    rewrite orb_true_iff, IH. split.
    + intros [H | (stem & t & -> & H)].
      * exists "", (String a s). split; [reflexivity | exact H].
      * exists (String a stem), t. split; [reflexivity | exact H].
    + intros (stem & t & Hs & H). destruct stem as [|b stem].
      * left. change (String a s = t) in Hs. now subst t.
      * right. change (String a s = String b (stem ++ t)%string) in Hs.
        injection Hs as _ ->. eauto.
Qed.

(** X18.  [imageRe] accepts a name exactly when the name ends in [.jpg],
    [.jpeg] or [.png], in any mix of upper and lower case. *)
Theorem imageRe_accepts_extensions (name : string) :
  MatchString imageRe name = true <->
  exists stem ext,
    name = (stem ++ ext)%string /\
    (lower ext = ".jpg" \/ lower ext = ".jpeg" \/ lower ext = ".png").
Proof.
  rewrite MatchString_somewhere. split.
  - intros (stem & t & Hs & H). exists stem, t. split; [exact Hs|]. now apply imageRe_here.
  - intros (stem & t & Hs & H). exists stem, t. split; [exact Hs|]. now apply imageRe_here.
Qed.

Lemma length_string_app (s t : string) :
  String.length (s ++ t)%string = (String.length s + String.length t)%nat.
Proof.
  induction s as [|a s IH]; [reflexivity|].
  change (S (String.length (s ++ t)%string) = S (String.length s + String.length t)).
  now rewrite IH.
Qed.

Lemma imageRe_here_short (t : string) :
  match_here imageRe t (fun _ => true) = true -> (String.length t <= 5)%nat.
Proof.
  intros H. apply imageRe_here in H. rewrite <- (lower_length t).
  destruct H as [-> | [-> | ->]]; cbn; lia.
Qed.

(** X19.  [imageRe] rejects every name that ends in [.webp], whatever comes
    before: the files the tool writes are not picked up as inputs when the
    directory is crawled again. *)
Theorem imageRe_rejects_webp (stem : string) :
  MatchString imageRe (stem ++ ".webp")%string = false.
Proof.
  induction stem as [|a stem IH]; [vm_compute; reflexivity|].
  change (MatchString imageRe (String a stem ++ ".webp")%string)
    with (match_here imageRe (String a (stem ++ ".webp")%string) (fun _ => true)
          || MatchString imageRe (stem ++ ".webp")%string).
  rewrite IH, orb_false_r.
  destruct (match_here imageRe _ _) eqn:E; [|reflexivity].
  apply imageRe_here_short in E.
  change (S (String.length (stem ++ ".webp")%string) <= 5)%nat in E.
  rewrite length_string_app in E. cbn in E. lia.
Qed.

(** ** [main] *)

Lemma offered_main_part (sched : list label) :
  offered (List.filter main_label sched) = offered sched.
Proof.
  induction sched as [|l sched IH]; [reflexivity|].
  destruct l; cbn; fold (offered sched); fold (offered (List.filter main_label sched));
    rewrite ?IH; reflexivity.
Qed.

(** What the walk sends: a job for each image met before the first error. *)
Lemma walk_sends (q : Z) (visits : list visit) :
  offered (fst (filepath_Walk (walk_fn q) visits)) = images q visits.
Proof.
  unfold images. induction visits as [|v visits IH]; [reflexivity|].
  cbn. unfold walk_fn at 1.
  destruct (v_err v) as [e|]; [reflexivity|]. cbn.
  destruct (MatchString imageRe (v_name v)); cbn;
    destruct (filepath_Walk (walk_fn q) visits) as [sends e]; cbn in *;
    now rewrite IH.
Qed.

Lemma pool_step_returned P cfg (l : label) (s s' : pool_state) :
  pool_step P cfg l s = Some s' ->
  (ps_wait s = Returned \/ l = WaitReturn -> ps_wait s' = Returned) /\
  (ps_stop s = Returned \/ l = StopReturn -> ps_stop s' = Returned).
Proof.
  unfold pool_step. intros Hstep.
  destruct (ps_crashed s); [discriminate|].
  destruct l; repeat case_match; simplify_eq; cbn;
    split; intros [? | ?]; congruence.
Qed.

Lemma run_schedule_returned P cfg (sched : list label) (s s' : pool_state) :
  run_schedule P cfg sched s = Some s' ->
  (ps_wait s = Returned \/ In WaitReturn sched -> ps_wait s' = Returned) /\
  (ps_stop s = Returned \/ In StopReturn sched -> ps_stop s' = Returned).
Proof.
  revert s. induction sched as [|l sched IH]; intros s Hrun; cbn in Hrun.
  - simplify_eq. cbn. tauto.
  - destruct (pool_step P cfg l s) as [s1|] eqn:Hstep; [|discriminate].
    destruct (IH s1 Hrun) as [IHw IHs].
    destruct (pool_step_returned P cfg l s s1 Hstep) as [Hw Hs].
    cbn. split; intros [H | [H | H]]; auto.
Qed.

(** X20.  A run of [main] that gets through its crawl, [p.wait()] and the
    deferred [p.stop()] has converted what it found: the jobs that workers
    received are, in the order of the walk, the entries whose name
    [imageRe] accepts among those visited before the walk's first error;
    each of them was executed once and got one result on its closed
    channel; no other job was executed, and every worker is gone. *)
Theorem main_converts_every_image P E cfg c n steps e w (sched : list label) (s : pool_state) :
  main P E cfg c = Crawl n steps e ->
  List.filter main_label sched = steps ->
  run_schedule P cfg sched (newPool n w) = Some s ->
  exists d,
    filepath_Abs P (strings_TrimSpace E (cli_dir c)) = (d, None) /\
    ps_wait s = Returned /\ ps_stop s = Returned /\
    Forall (fun x => has_exited x = true) (ps_workers s) /\
    ps_pending s = [] /\
    ps_started s = images (cli_quality c) (walked E d) /\
    map fst (ps_finished s) ≡ₚ images (cli_quality c) (walked E d) /\
    Forall (fun p => delivered_once (snd p)) (ps_finished s).
Proof.
  unfold main. intros Hmain Hsteps Hrun.
  destruct (_ && _); [discriminate|].
  destruct (filepath_Abs P _) as [d [e'|]] eqn:Habs; [discriminate|].
  pose proof (walk_sends (cli_quality c) (walked E d)) as Hsends.
  destruct (filepath_Walk _ _) as [sends e'] eqn:Hwalk.
  injection Hmain as _ Hst _. rewrite <- Hst in Hsteps. clear Hst. cbn [fst] in Hsends.
  exists d. split; [reflexivity|].
  assert (Hoff : offered sched = images (cli_quality c) (walked E d)).
  { rewrite <- offered_main_part, Hsteps, offered_app, Hsends. cbn. apply app_nil_r. }
  assert (Hin : forall l, In l [WaitReturn; StopReturn] -> In l sched).
  { intros l Hl. apply (proj1 (filter_In main_label l sched)).
    rewrite Hsteps, !in_app_iff. cbn in *. tauto. }
  destruct (run_schedule_returned P cfg sched _ s Hrun) as [Hw Hs].
  assert (Hwait : ps_wait s = Returned) by (apply Hw; right; apply Hin; cbn; tauto).
  assert (Hstop : ps_stop s = Returned) by (apply Hs; right; apply Hin; cbn; tauto).
  pose proof (run_schedule_inv P cfg sched _ s Hrun (newPool_inv _ w)) as Hinv.
  pose proof (run_schedule_wait_inv P cfg sched _ s Hrun (newPool_inv _ w)
                (newPool_wait_inv _ w)) as Hwi.
  destruct (wait_returned_drained s Hinv Hwi Hwait) as (Hall & Hpend & Hnone & Hst).
  pose proof (run_schedule_queue P cfg sched _ s Hrun) as Hq.
  rewrite Hpend, app_nil_r, Hoff in Hq. cbn in Hq.
  repeat apply conj; try assumption.
  - now rewrite <- Hq, Hst.
  - apply (inv_finished s Hinv).
Qed.

Lemma main_converts_every_image_witness :
  exists s,
    run_schedule (Sample.unix (Some "/work")) Sample.defaults
      [Offer "/photos/a.png" 80; Receive 0; Offer "/photos/b.JPG" 80; Receive 1;
       Execute 1; Execute 0; WaitCall; NoMoreWork 0; NoMoreWork 1; WgDone 0; WgDone 1;
       WaitReturn; StopCall; StopReturn]
      (newPool 2 (Sample.disk [("/photos/a.png", 51200); ("/photos/b.JPG", 40000);
                               ("/photos/b.webp", 30000); ("/photos/notes.txt", 12000)]))
    = Some s /\
    ps_started s = [newJob "/photos/a.png" 80; newJob "/photos/b.JPG" 80] /\
    Forall (fun p => delivered_once (snd p)) (ps_finished s).
Proof.
  eexists. split; [vm_compute; reflexivity|].
  match goal with
  | |- ps_started ?s = _ /\ _ =>
      destruct (main_converts_every_image (Sample.unix (Some "/work")) SampleCrawl.env
                  Sample.defaults
                  {| cli_dir := " /photos "; cli_quality := 80; cli_workers := 2 |}
                  2
                  [Offer "/photos/a.png" 80; Offer "/photos/b.JPG" 80;
                   WaitCall; WaitReturn; StopCall; StopReturn]
                  None
                  (Sample.disk [("/photos/a.png", 51200); ("/photos/b.JPG", 40000);
                                ("/photos/b.webp", 30000); ("/photos/notes.txt", 12000)])
                  [Offer "/photos/a.png" 80; Receive 0; Offer "/photos/b.JPG" 80; Receive 1;
                   Execute 1; Execute 0; WaitCall; NoMoreWork 0; NoMoreWork 1;
                   WgDone 0; WgDone 1; WaitReturn; StopCall; StopReturn]
                  s)
        as (d & Habs & _ & _ & _ & _ & Hst & _ & Hdel)
  end.
  - vm_compute. reflexivity.
  - vm_compute. reflexivity.
  - vm_compute. reflexivity.
  - split; [|exact Hdel].
    rewrite Hst. vm_compute in Habs. injection Habs as <-. vm_compute. reflexivity.
Defined.

(** ** Binary64 arithmetic of the compression ratio

    Rocq's primitive floats are IEEE 754 binary64, as Go's [float64]; their
    operations are specified on [spec_float] by the axioms of
    [FloatAxioms]. *)

Lemma digits2_pos_size (p : positive) : digits2_pos p = Pos.size p.
Proof. induction p; cbn; congruence. Qed.

Lemma digits2_bounds (p : positive) :
  2 ^ (Zpos (digits2_pos p) - 1) <= Zpos p < 2 ^ Zpos (digits2_pos p).
Proof.
  rewrite digits2_pos_size. split.
  - pose proof (Pos.size_le p) as H.
    assert (H' : 2 ^ Zpos (Pos.size p) <= 2 * Zpos p).
    { change (2 * Zpos p) with (Zpos p~0). rewrite <- Pos2Z.inj_pow. exact H. }
    replace (Zpos (Pos.size p)) with (Zpos (Pos.size p) - 1 + 1) in H' by lia.
    rewrite Z.pow_add_r in H' by lia. change (2 ^ 1) with 2 in H'. lia.
  - pose proof (Pos.size_gt p) as H.
    rewrite <- Pos2Z.inj_pow. exact H.
Qed.

Lemma digits2_unique (p : positive) (d : Z) :
  2 ^ (d - 1) <= Zpos p < 2 ^ d -> Zpos (digits2_pos p) = d.
Proof.
  intros [Hlo Hhi]. pose proof (digits2_bounds p) as [Hlo' Hhi'].
  assert (0 < d).
  { destruct (Z.ltb_spec 0 d); [assumption|].
    assert (2 ^ d <= 2 ^ 0) by (apply Z.pow_le_mono_r; lia). change (2 ^ 0) with 1 in *. lia. }
  assert (d - 1 < Zpos (digits2_pos p)).
  { apply (Z.pow_lt_mono_r_iff 2); lia. }
  assert (Zpos (digits2_pos p) - 1 < d).
  { apply (Z.pow_lt_mono_r_iff 2); lia. }
  lia.
Qed.

Lemma shr_1_m (mrs : shr_record) :
  0 <= shr_m mrs -> shr_m (shr_1 mrs) = shr_m mrs / 2.
Proof.
  destruct mrs as [m r s]. cbn. intros Hm.
  destruct m as [|p|p]; [reflexivity| |lia].
  destruct p as [p|p|]; cbn [shr_m].
  - rewrite Pos2Z.inj_xI. apply Z.div_unique with (r := 1); lia.
  - rewrite Pos2Z.inj_xO. apply Z.div_unique with (r := 0); lia.
  - reflexivity.
Qed.

Lemma pow2_xO (n : positive) : 2 ^ Zpos n~0 = 2 ^ Zpos n * 2 ^ Zpos n.
Proof. rewrite <- Z.pow_add_r by lia. f_equal. lia. Qed.

Lemma pow2_xI (n : positive) : 2 ^ Zpos n~1 = 2 * (2 ^ Zpos n * 2 ^ Zpos n).
Proof.
  rewrite <- Z.pow_add_r by lia. rewrite <- (Z.pow_succ_r 2) by lia. f_equal. lia.
Qed.

Lemma iter_pos_shr_m (n : positive) (mrs : shr_record) :
  0 <= shr_m mrs -> shr_m (SpecFloat.iter_pos shr_1 n mrs) = shr_m mrs / 2 ^ Zpos n.
Proof.
  revert mrs. induction n as [n IH|n IH|]; intros mrs Hm; cbn [SpecFloat.iter_pos].
  - assert (Hp : 0 < 2 ^ Zpos n) by (apply Z.pow_pos_nonneg; lia).
    assert (H1 : 0 <= shr_m (shr_1 mrs)).
    { rewrite shr_1_m by assumption. apply Z.div_pos; lia. }
    assert (H2 : 0 <= shr_m (SpecFloat.iter_pos shr_1 n (shr_1 mrs))).
    { rewrite IH by assumption. apply Z.div_pos; assumption. }
    rewrite IH, IH, shr_1_m by assumption.
    rewrite !Z.div_div by lia. now rewrite pow2_xI.
  - assert (Hp : 0 < 2 ^ Zpos n) by (apply Z.pow_pos_nonneg; lia).
    assert (H2 : 0 <= shr_m (SpecFloat.iter_pos shr_1 n mrs)).
    { rewrite IH by assumption. apply Z.div_pos; assumption. }
    rewrite IH, IH by assumption.
    rewrite !Z.div_div by lia. now rewrite pow2_xO.
  - rewrite shr_1_m by assumption. reflexivity.
Qed.

Lemma shr_record_of_loc_m (m : Z) (l : location) : shr_m (shr_record_of_loc m l) = m.
Proof. destruct l as [|[]]; reflexivity. Qed.

Lemma shr_fexp_positive (m : positive) (e : Z) (l : location) :
  -1074 - e < Zpos (digits2_pos m) ->
  0 < shr_m (fst (shr_fexp prec emax (Zpos m) e l)).
Proof.
  intros Hd. unfold shr_fexp, shr, fexp, SpecFloat.emin, prec, emax, Zdigits2.
  pose proof (digits2_bounds m) as [Hlo _].
  destruct (Z.max (Zpos (digits2_pos m) + e - 53) (3 - 1024 - 53) - e) as [|p|p] eqn:Hn;
    cbn [fst]; rewrite ?shr_record_of_loc_m; try lia.
  rewrite iter_pos_shr_m by (rewrite shr_record_of_loc_m; lia).
  rewrite shr_record_of_loc_m.
  apply Z.div_str_pos. split; [apply Z.pow_pos_nonneg; lia|].
  transitivity (2 ^ (Zpos (digits2_pos m) - 1)); [|exact Hlo].
  apply Z.pow_le_mono_r; lia.
Qed.

Lemma shr_fexp_exponent (m : positive) (e : Z) (l : location) :
  shr_fexp prec emax (Zpos m) e l = (shr_record_of_loc (Zpos m) l, e) \/
  -1074 <= snd (shr_fexp prec emax (Zpos m) e l).
Proof.
  unfold shr_fexp, shr, fexp, SpecFloat.emin, prec, emax, Zdigits2.
  destruct (Z.max (Zpos (digits2_pos m) + e - 53) (3 - 1024 - 53) - e) as [|p|p] eqn:Hn;
    [left; reflexivity | right; cbn [snd]; lia | left; reflexivity].
Qed.

Lemma round_nearest_even_positive (m : Z) (l : location) :
  0 < m -> 0 < round_nearest_even m l.
Proof.
  intros Hm. destruct l as [|[]]; cbn; try lia. destruct (Z.even m); lia.
Qed.

(** Rounding a non-zero exact value that does not underflow to nothing
    gives a non-zero result of the same sign. *)
Lemma binary_round_aux_nonzero (s : bool) (m : positive) (e : Z) :
  -1074 - e < Zpos (digits2_pos m) ->
  signed_nonzero s (binary_round_aux prec emax s (Zpos m) e loc_Exact).
Proof.
  intros Hd. unfold binary_round_aux.
  pose proof (shr_fexp_positive m e loc_Exact Hd) as Hpos.
  pose proof (shr_fexp_exponent m e loc_Exact) as Hexp.
  destruct (shr_fexp prec emax (Zpos m) e loc_Exact) as [mrs' e'] eqn:E1.
  cbn [fst snd] in *.
  assert (Hq : exists q, round_nearest_even (shr_m mrs') (loc_of_shr_record mrs') = Zpos q
                         /\ -1074 - e' < Zpos (digits2_pos q)).
  { destruct Hexp as [Heq | Hge].
    - inversion Heq; subst. cbn. exists m. split; [reflexivity | exact Hd].
    - pose proof (round_nearest_even_positive _ (loc_of_shr_record mrs') Hpos) as Hr.
      destruct (round_nearest_even (shr_m mrs') (loc_of_shr_record mrs')) as [|q|q]; try lia.
      exists q. split; [reflexivity | lia]. }
  destruct Hq as (q & -> & Hdq).
  pose proof (shr_fexp_positive q e' loc_Exact Hdq) as Hpos2.
  destruct (shr_fexp prec emax (Zpos q) e' loc_Exact) as [mrs'' e''].
  cbn [fst] in Hpos2.
  destruct (shr_m mrs'') as [|m2|m2]; try lia.
  destruct (e'' <=? emax - prec); [right; eauto | left; reflexivity].
Qed.

Lemma binary_round_nonzero (s : bool) (p : positive) (e : Z) :
  -1074 - e < Zpos (digits2_pos p) ->
  signed_nonzero s (binary_round prec emax s p e).
Proof.
  intros Hd. unfold binary_round, shl_align.
  destruct (fexp prec emax (Zpos (digits2_pos p) + e) - e) as [|d|d] eqn:Hn;
    try (apply binary_round_aux_nonzero; exact Hd).
  apply binary_round_aux_nonzero.
  unfold fexp, SpecFloat.emin, prec, emax in *.
  pose proof (Pos2Z.is_pos (digits2_pos (Pos.iter xO p d))). lia.
Qed.

Lemma iter_xO_pow (m d : positive) : Zpos (Pos.iter xO m d) = Zpos m * 2 ^ Zpos d.
Proof.
  induction d as [|d IH] using Pos.peano_ind.
  - cbn. lia.
  - rewrite Pos.iter_succ, Pos2Z.inj_xO, IH, Pos2Z.inj_succ, Z.pow_succ_r by lia. lia.
Qed.

Lemma signed_nonzero_negative (x : spec_float) :
  signed_nonzero true x -> SFltb x (S754_zero false) = true.
Proof. intros [-> | (m & e & ->)]; reflexivity. Qed.

Lemma bounded_exponent (m : positive) (e : Z) :
  bounded prec emax m e = true ->
  -1074 <= e <= 971 /\ (-1074 < e -> Zpos (digits2_pos m) = 53).
Proof.
  unfold bounded, canonical_mantissa, fexp, SpecFloat.emin, prec, emax.
  intros H. apply andb_prop in H as [H1 H2].
  apply Z.eqb_eq in H1. apply Z.leb_le in H2. lia.
Qed.

(** [1 - x] is negative and not zero when the finite [x] is above one. *)
Lemma SFsub_one_above (m : positive) (e : Z) :
  bounded prec emax m e = true ->
  SFcompare (S754_finite false 4503599627370496 (-52)) (S754_finite false m e) = Some Lt ->
  signed_nonzero true
    (SFsub prec emax (S754_finite false 4503599627370496 (-52)) (S754_finite false m e)).
Proof.
  intros Hb Hlt. apply bounded_exponent in Hb as [Hrange Hdig].
  pose proof (digits2_bounds m) as [Hlo Hhi].
  cbn [SFcompare] in Hlt.
  assert (Hcases : (e = -52 /\ 4503599627370496 < Zpos m) \/
                   (-52 < e /\ 4503599627370496 <= Zpos m)).
  { destruct (Z.compare_spec (-52) e) as [<- | Hl | Hg]; try discriminate.
    - left. split; [reflexivity|]. inversion Hlt as [Hc].
      apply (proj1 (Pos.compare_lt_iff _ _)) in Hc. lia.
    - right. split; [assumption|]. rewrite Hdig in Hlo by lia. exact Hlo. }
  unfold SFsub.
  assert (Hmin : Z.min (-52) e = -52) by lia. rewrite Hmin.
  change (fst (shl_align 4503599627370496 (-52) (-52))) with 4503599627370496%positive.
  assert (Hbig : 4503599627370496 < Zpos (fst (shl_align m e (-52)))).
  { unfold shl_align. destruct (-52 - e) as [|d|d] eqn:Hd; cbn [fst]; try lia.
    rewrite iter_xO_pow.
    assert (2 <= 2 ^ Zpos d).
    { change 2 with (2 ^ 1) at 1. apply Z.pow_le_mono_r; lia. }
    nia. }
  cbn [cond_Zopp].
  destruct (4503599627370496 - Zpos (fst (shl_align m e (-52)))) as [|p|p] eqn:Hp; try lia.
  cbn [binary_normalize]. apply binary_round_nonzero.
  pose proof (Pos2Z.is_pos (digits2_pos p)). lia.
Qed.

(** A negative, non-zero number times 100 is negative and not zero. *)
Lemma SFmul_hundred_negative (x : spec_float) :
  valid_binary x = true -> signed_nonzero true x ->
  signed_nonzero true (SFmul prec emax x (S754_finite false 7036874417766400 (-46))).
Proof.
  intros Hv [-> | (m & e & ->)]; [left; reflexivity|].
  cbn [valid_binary] in Hv. apply bounded_exponent in Hv as [Hrange _].
  cbn [SFmul xorb]. apply binary_round_aux_nonzero.
  pose proof (digits2_bounds (m * 7036874417766400)) as [_ Hhi].
  rewrite Pos2Z.inj_mul in Hhi.
  assert (Hd : 52 < Zpos (digits2_pos (m * 7036874417766400))).
  { apply (Z.pow_lt_mono_r_iff 2); [lia | lia |].
    eapply Z.le_lt_trans; [|exact Hhi]. change (2 ^ 52) with 4503599627370496. lia. }
  lia.
Qed.

(** In binary64: if [q] is above one then [(1 - q) * 100] is below zero. *)
Lemma ratio_negative_of_quotient (q : float) :
  (1 <? q)%float = true -> ((1 - q) * 100 <? 0)%float = true.
Proof.
  rewrite !FloatAxioms.ltb_spec, FloatAxioms.mul_spec.
  change (Prim2SF 100) with (S754_finite false 7036874417766400 (-46)).
  change (Prim2SF 0) with (S754_zero false).
  pose proof (Prim2SF_valid (1 - q)) as Hv1.
  rewrite FloatAxioms.sub_spec in *.
  change (Prim2SF 1) with (S754_finite false 4503599627370496 (-52)) in *.
  pose proof (Prim2SF_valid q) as Hv.
  destruct (Prim2SF q) as [s|s| |s m e]; intros Hlt.
  - discriminate.
  - destruct s; [discriminate|]. reflexivity.
  - discriminate.
  - destruct s; [discriminate|]. unfold SFltb in Hlt.
    destruct (SFcompare (S754_finite false 4503599627370496 (-52)) (S754_finite false m e))
      as [[]|] eqn:Hc; try discriminate.
    apply signed_nonzero_negative.
    apply SFmul_hundred_negative; [exact Hv1|].
    apply SFsub_one_above; [exact Hv | exact Hc].
Qed.

(** *** Conversion from sizes and division *)

Lemma binary_round_aux_canonical (s : bool) (m : positive) (e : Z) :
  Zpos (digits2_pos m) = 53 -> -1074 <= e <= 971 ->
  binary_round_aux prec emax s (Zpos m) e loc_Exact = S754_finite s m e.
Proof.
  intros Hd He.
  assert (Hs : shr_fexp prec emax (Zpos m) e loc_Exact
               = ({| shr_m := Zpos m; shr_r := false; shr_s := false |}, e)).
  { unfold shr_fexp, fexp, SpecFloat.emin, prec, emax, Zdigits2. rewrite Hd.
    replace (Z.max (53 + e - 53) (3 - 1024 - 53) - e) with 0 by lia. reflexivity. }
  unfold binary_round_aux. rewrite Hs. cbn [shr_m loc_of_shr_record round_nearest_even].
  rewrite Hs. cbn [shr_m]. unfold prec, emax.
  destruct (Z.leb_spec e (1024 - 53)); [reflexivity | lia].
Qed.

(** The binary64 value of a size below [2^53]: exact, with a 53-bit
    mantissa. *)
Lemma Prim2SF_of_size (n : Z) :
  0 < n < 9007199254740992 ->
  exists (M : positive) (k : Z),
    Prim2SF (PrimFloat.of_uint63 (Uint63.of_Z n)) = S754_finite false M (- k) /\
    0 <= k <= 52 /\ Zpos M = n * 2 ^ k /\
    4503599627370496 <= Zpos M < 9007199254740992.
Proof.
  intros Hn. rewrite of_uint63_spec.
  assert (Hto : Uint63Axioms.to_Z (Uint63.of_Z n) = n).
  { rewrite Uint63.of_Z_spec. apply Z.mod_small.
    change wB with 9223372036854775808. lia. }
  rewrite Hto. destruct n as [|p|p]; try lia.
  cbn [binary_normalize]. unfold binary_round.
  pose proof (digits2_bounds p) as [Hlo Hhi].
  assert (Hd : 1 <= Zpos (digits2_pos p) <= 53).
  { split; [lia|].
    destruct (Z.leb_spec (Zpos (digits2_pos p)) 53) as [|Hgt]; [assumption|].
    assert (2 ^ 53 <= 2 ^ (Zpos (digits2_pos p) - 1)) by (apply Z.pow_le_mono_r; lia).
    change (2 ^ 53) with 9007199254740992 in *. lia. }
  set (d := Zpos (digits2_pos p)) in *.
  assert (Hf : fexp prec emax (d + 0) = d - 53).
  { unfold fexp, SpecFloat.emin, prec, emax. lia. }
  rewrite Hf.
  assert (Hsplit : 2 ^ 53 = 2 ^ d * 2 ^ (53 - d)).
  { rewrite <- Z.pow_add_r by lia. f_equal. lia. }
  assert (Hsplit' : 2 ^ 52 = 2 ^ (d - 1) * 2 ^ (53 - d)).
  { rewrite <- Z.pow_add_r by lia. f_equal. lia. }
  change (2 ^ 53) with 9007199254740992 in Hsplit.
  change (2 ^ 52) with 4503599627370496 in Hsplit'.
  assert (Hpow : 0 < 2 ^ (53 - d)) by (apply Z.pow_pos_nonneg; lia).
  assert (Hbounds : 4503599627370496 <= Zpos p * 2 ^ (53 - d) < 9007199254740992) by nia.
  unfold shl_align.
  destruct (d - 53 - 0) as [|dd|dd] eqn:Hdd; try lia.
  - assert (d = 53) by lia. replace (53 - d) with 0 in Hbounds by lia.
    rewrite Z.pow_0_r, Z.mul_1_r in Hbounds.
    rewrite binary_round_aux_canonical; [|apply digits2_unique; cbn; lia|lia].
    exists p, 0. cbn. repeat split; lia.
  - assert (Hdd' : Zpos dd = 53 - d) by lia.
    pose proof (iter_xO_pow p dd) as Hit. rewrite Hdd' in Hit.
    rewrite binary_round_aux_canonical;
      [|apply digits2_unique; rewrite Hit; cbn; lia|lia].
    exists (Pos.iter xO p dd), (53 - d).
    replace (- (53 - d)) with (d - 53) by lia. repeat split; lia.
Qed.

Lemma loc_of_shr_record_of_loc (m : Z) (l : location) :
  loc_of_shr_record (shr_record_of_loc m l) = l.
Proof. destruct l as [|[]]; reflexivity. Qed.

Lemma shr_fexp_53 (q : positive) (e : Z) (l : location) :
  4503599627370496 <= Zpos q < 9007199254740992 -> -1074 <= e ->
  shr_fexp prec emax (Zpos q) e l = (shr_record_of_loc (Zpos q) l, e).
Proof.
  intros Hq He. unfold shr_fexp, fexp, SpecFloat.emin, prec, emax, Zdigits2.
  rewrite (digits2_unique q 53) by (cbn; lia).
  replace (Z.max (53 + e - 53) (3 - 1024 - 53) - e) with 0 by lia. reflexivity.
Qed.

Lemma shr_fexp_54 (q : positive) (e : Z) (l : location) :
  9007199254740992 <= Zpos q < 18014398509481984 -> -1075 <= e ->
  shr_fexp prec emax (Zpos q) e l = (shr_1 (shr_record_of_loc (Zpos q) l), e + 1).
Proof.
  intros Hq He. unfold shr_fexp, fexp, SpecFloat.emin, prec, emax, Zdigits2.
  rewrite (digits2_unique q 54) by (cbn; lia).
  replace (Z.max (54 + e - 53) (3 - 1024 - 53) - e) with 1 by lia. reflexivity.
Qed.

Lemma round_nearest_even_ge (m : Z) (l : location) :
  m <= round_nearest_even m l <= m + 1.
Proof. destruct l as [|[]]; cbn; try lia. destruct (Z.even m); lia. Qed.

(** The second half of [binary_round_aux], for a rounded mantissa of 53
    bits, or of 54 bits after a carry. *)
Lemma binary_round_aux_second (s : bool) (mx ex : Z) (lx : location)
    (mrs' : shr_record) (e' : Z) (q1 : positive) :
  shr_fexp prec emax mx ex lx = (mrs', e') ->
  round_nearest_even (shr_m mrs') (loc_of_shr_record mrs') = Zpos q1 ->
  4503599627370496 <= Zpos q1 <= 9007199254740992 ->
  -1074 <= e' <= 970 ->
  exists m'' e'',
    binary_round_aux prec emax s mx ex lx = S754_finite s m'' e'' /\
    ((e'' = e' /\ m'' = q1) \/ e'' = e' + 1).
Proof.
  intros H1 H2 Hq He. unfold binary_round_aux. rewrite H1, H2.
  destruct (Z.ltb_spec (Zpos q1) 9007199254740992) as [Hlt | Hge].
  - rewrite shr_fexp_53 by lia. cbn [shr_record_of_loc shr_m]. unfold prec, emax.
    destruct (Z.leb_spec e' (1024 - 53)); [|lia].
    exists q1, e'. split; [reflexivity | left; split; reflexivity].
  - assert (q1 = 9007199254740992%positive) by lia. subst q1.
    rewrite shr_fexp_54 by lia. cbn [shr_record_of_loc shr_1 shr_m]. unfold prec, emax.
    destruct (Z.leb_spec (e' + 1) (1024 - 53)); [|lia].
    eexists _, (e' + 1). split; [reflexivity | right; reflexivity].
Qed.

Lemma above_one_finite (m : positive) (e : Z) :
  -52 < e \/ (e = -52 /\ 4503599627370496 < Zpos m) ->
  SFcompare (S754_finite false 4503599627370496 (-52)) (S754_finite false m e) = Some Lt.
Proof.
  intros [He | [-> Hm]]; cbn [SFcompare].
  - apply Z.compare_lt_iff in He. now rewrite He.
  - rewrite Z.compare_refl. f_equal.
    change (Pos.compare 4503599627370496 m = Lt). apply Pos.compare_lt_iff. lia.
Qed.

Lemma new_location_inexact (n r : Z) :
  r <> 0 -> new_location n r <> loc_Exact.
Proof.
  intros Hr. unfold new_location.
  destruct (Z.even n); unfold new_location_even, new_location_odd;
    destruct (Z.eqb_spec r 0); try contradiction; discriminate.
Qed.

Lemma new_location_above_half (n r : Z) :
  n < 2 * r -> 0 < n -> new_location n r = loc_Inexact Gt.
Proof.
  intros Hr Hn. unfold new_location.
  destruct (Z.even n); unfold new_location_even, new_location_odd;
    destruct (Z.eqb_spec r 0); try lia.
  - f_equal. apply Z.compare_gt_iff. lia.
  - assert (H : (2 * r + 1 ?= n) = Gt) by (apply Z.compare_gt_iff; lia).
    now rewrite H.
Qed.

(** The quotient of two binary64 values with 53-bit mantissas, the first
    the larger, rounds to a value above one. *)
Lemma SFdiv_above_one (M1 M2 : positive) (k1 k2 : Z) :
  4503599627370496 <= Zpos M1 < 9007199254740992 ->
  4503599627370496 <= Zpos M2 < 9007199254740992 ->
  0 <= k1 <= 52 -> 0 <= k2 <= 52 ->
  Zpos M2 * 2 ^ k1 < Zpos M1 * 2 ^ k2 ->
  SFcompare (S754_finite false 4503599627370496 (-52))
    (SFdiv prec emax (S754_finite false M1 (- k1)) (S754_finite false M2 (- k2))) = Some Lt.
Proof.
  intros HM1 HM2 Hk1 Hk2 Hlt.
  assert (Hp1 : 0 < 2 ^ k1) by (apply Z.pow_pos_nonneg; lia).
  assert (Hk : k1 <= k2).
  { destruct (Z.leb_spec k1 k2) as [|Hgt]; [assumption|]. exfalso.
    assert (Hs : 2 ^ k1 = 2 ^ k2 * 2 ^ (k1 - k2)).
    { rewrite <- Z.pow_add_r by lia. f_equal. lia. }
    assert (2 ^ 1 <= 2 ^ (k1 - k2)) by (apply Z.pow_le_mono_r; lia).
    assert (0 < 2 ^ k2) by (apply Z.pow_pos_nonneg; lia).
    change (2 ^ 1) with 2 in *. nia. }
  set (t := k2 - k1).
  assert (Ht : 0 <= t <= 52) by lia.
  assert (Hs : 2 ^ k2 = 2 ^ k1 * 2 ^ t).
  { rewrite <- Z.pow_add_r by lia. f_equal. lia. }
  assert (HT : Zpos M2 < Zpos M1 * 2 ^ t) by nia.
  assert (HT1 : 1 <= 2 ^ t) by (pose proof (Z.pow_pos_nonneg 2 t); lia).
  assert (HT2 : 1 <= t -> 2 <= 2 ^ t).
  { intros. change 2 with (2 ^ 1) at 1. apply Z.pow_le_mono_r; lia. }
  assert (HT0 : t = 0 -> 2 ^ t = 1) by (intros ->; reflexivity).
  unfold SFdiv, SFdiv_core_binary, Zdigits2. cbv zeta.
  rewrite (digits2_unique M1 53), (digits2_unique M2 53) by (cbn; lia).
  assert (He' : Z.min (fexp prec emax (53 + - k1 - (53 + - k2))) (- k1 - - k2) = t - 53).
  { unfold fexp, SpecFloat.emin, prec, emax. lia. }
  rewrite He'.
  replace (- k1 - - k2 - (t - 53)) with 53 by lia.
  rewrite Z.shiftl_mul_pow2 by lia. change (2 ^ 53) with 9007199254740992.
  pose proof (Z_div_mod (Zpos M1 * 9007199254740992) (Zpos M2) eq_refl) as Hdm.
  destruct (Z.div_eucl (Zpos M1 * 9007199254740992) (Zpos M2)) as [q r].
  destruct Hdm as [Heq Hr]. cbn [xorb].
  assert (Hq : 4503599627370496 <= q < 18014398509481984) by nia.
  destruct q as [|q|q]; try lia.
  destruct (Z.ltb_spec (Zpos q) 9007199254740992) as [Hq53 | Hq54].
  - (* a quotient of 53 bits: the divisor has the larger mantissa *)
    assert (HM : Zpos M1 < Zpos M2) by nia.
    assert (Ht1 : 1 <= t) by (destruct (Z.eq_dec t 0) as [E|]; [rewrite (HT0 E) in HT|]; lia).
    pose proof (round_nearest_even_ge (Zpos q) (new_location (Zpos M2) r)) as Hrnd.
    destruct (round_nearest_even (Zpos q) (new_location (Zpos M2) r)) as [|q1|q1] eqn:Hq1;
      try lia.
    destruct (binary_round_aux_second false (Zpos q) (t - 53) (new_location (Zpos M2) r)
                (shr_record_of_loc (Zpos q) (new_location (Zpos M2) r)) (t - 53) q1)
      as (m'' & e'' & -> & Hres).
    + apply shr_fexp_53; lia.
    + rewrite shr_record_of_loc_m, loc_of_shr_record_of_loc. exact Hq1.
    + lia.
    + lia.
    + apply above_one_finite.
      destruct Hres as [[-> ->] | ->]; [|left; lia].
      destruct (Z.eq_dec t 1) as [E | ]; [|left; lia]. right. split; [lia|].
      destruct (Z.eq_dec (Zpos q) 4503599627370496) as [Eq | ]; [|lia].
      assert (Hloc : new_location (Zpos M2) r = loc_Inexact Gt).
      { apply new_location_above_half; lia. }
      rewrite Hloc, Eq in Hq1. cbn in Hq1. lia.
  - (* a quotient of 54 bits *)
    assert (HM : Zpos M2 <= Zpos M1) by nia.
    set (mrs := shr_1 (shr_record_of_loc (Zpos q) (new_location (Zpos M2) r))).
    assert (Hm : shr_m mrs = Zpos q / 2).
    { unfold mrs. rewrite shr_1_m; rewrite shr_record_of_loc_m; lia. }
    pose proof (round_nearest_even_ge (shr_m mrs) (loc_of_shr_record mrs)) as Hrnd.
    assert (Hhalf : 4503599627370496 <= Zpos q / 2 < 9007199254740992).
    { split; [apply Z.div_le_lower_bound | apply Z.div_lt_upper_bound]; lia. }
    destruct (round_nearest_even (shr_m mrs) (loc_of_shr_record mrs)) as [|q1|q1] eqn:Hq1;
      try lia.
    destruct (binary_round_aux_second false (Zpos q) (t - 53) (new_location (Zpos M2) r)
                mrs (t - 53 + 1) q1)
      as (m'' & e'' & -> & Hres).
    + apply shr_fexp_54; lia.
    + exact Hq1.
    + lia.
    + lia.
    + apply above_one_finite.
      destruct Hres as [[-> ->] | ->]; [|left; lia].
      destruct (Z.eq_dec t 0) as [E | ]; [|left; lia]. right. split; [lia|].
      rewrite (HT0 E) in HT.
      assert (Hq2 : 9007199254740993 <= Zpos q) by nia.
      destruct (Z.eq_dec (Zpos q) 9007199254740993) as [Eq | ].
      * assert (Hr0 : r <> 0) by lia.
        pose proof (new_location_inexact (Zpos M2) r Hr0) as Hloc.
        unfold mrs in Hq1. inversion Eq as [Eq']. rewrite Eq' in Hq1.
        destruct (new_location (Zpos M2) r) as [|[]]; [contradiction| | |];
          cbn in Hq1; lia.
      * assert (4503599627370497 <= Zpos q / 2) by (apply Z.div_le_lower_bound; lia).
        lia.
Qed.

(** For sizes below [2^53], the larger divided by the smaller is above one
    in binary64. *)
Lemma quotient_above_one (si so : Z) :
  0 <= si -> si < so -> so < 9007199254740992 ->
  (1 <? PrimFloat.of_uint63 (Uint63.of_Z so) / PrimFloat.of_uint63 (Uint63.of_Z si))%float
  = true.
Proof.
  intros Hsi Hlt Hso. rewrite FloatAxioms.ltb_spec, FloatAxioms.div_spec. unfold SFltb.
  change (Prim2SF 1) with (S754_finite false 4503599627370496 (-52)).
  destruct (Prim2SF_of_size so) as (M1 & k1 & -> & Hk1 & HM1 & Hb1); [lia|].
  destruct (Z.eq_dec si 0) as [-> | Hnz].
  - reflexivity.
  - destruct (Prim2SF_of_size si) as (M2 & k2 & -> & Hk2 & HM2 & Hb2); [lia|].
    unfold SF64div. rewrite SFdiv_above_one; try assumption; [reflexivity|].
    rewrite HM1, HM2.
    assert (0 < 2 ^ k1) by (apply Z.pow_pos_nonneg; lia).
    assert (0 < 2 ^ k2) by (apply Z.pow_pos_nonneg; lia).
    nia.
Qed.

(** C10 fails as stated: binary64 cannot tell [2^53 + 1] from [2^53].  An
    input of [2^53] bytes whose output is one byte longer is removed as
    larger, and the result's ratio is zero, not negative. *)
Lemma equal_after_rounding_ratio_zero :
  let P := Sample.unix_padding (Some "/work") 1 in
  let w := Sample.disk [("/photos/a.png", 9007199254740992)] in
  let x := execute P Sample.defaults (newJob "/photos/a.png" 80) w in
  cwebp_Run P 80 "/photos/a.png" "/photos/a.webp" w
    = (Sample.disk [("/photos/a.png", 9007199254740992);
                    ("/photos/a.webp", 9007199254740993)], None) /\
  outcome x = Next tt /\
  err (result x) = None /\
  exists_ (result x) = false /\
  files (world_after x) !! "/photos/a.webp" = None /\
  In (EvRemove "/photos/a.webp") (events x) /\
  compression (result x) = 0%float /\
  (compression (result x) <? 0)%float = false.
Proof.
  cbv zeta.
  split; [vm_compute; reflexivity|]. split; [vm_compute; reflexivity|].
  split; [vm_compute; reflexivity|]. split; [vm_compute; reflexivity|].
  split; [vm_compute; reflexivity|]. split; [vm_compute; tauto|].
  split; vm_compute; reflexivity.
Qed.

(** C10, for sizes that binary64 represents exactly.  When the encoder has
    succeeded, the output is larger than the input, both sizes are below
    [2^53], and the removal of the output succeeds, the result has a nil
    error, [exists = false] and the ratio of the two measured sizes, which
    is below zero; the output file is gone. *)
Theorem oversized_ratio_negative P cfg j w a si w1 so :
  resCh j = [] ->
  encoded P cfg j w a si w1 so ->
  0 <= si -> si < so -> so < 2 ^ 53 ->
  snd (os_Remove w1 (spec_output_path P cfg a)) = None ->
  outcome (execute P cfg j w) = Next tt /\
  err (result (execute P cfg j w)) = None /\
  exists_ (result (execute P cfg j w)) = false /\
  compression (result (execute P cfg j w)) = compression_ratio so si /\
  (compression (result (execute P cfg j w)) <? 0)%float = true /\
  files (world_after (execute P cfg j w)) !! spec_output_path P cfg a = None.
Proof.
  intros Hfresh Henc Hsi Hlt Hso Hrm.
  change (2 ^ 53) with 9007199254740992 in Hso.
  assert (Hfsi : file_size si) by (unfold file_size; change (2 ^ 63) with 9223372036854775808; lia).
  assert (Hfso : file_size so) by (unfold file_size; change (2 ^ 63) with 9223372036854775808; lia).
  assert (Hneg : (compression_ratio so si <? 0)%float = true).
  { unfold compression_ratio. rewrite !float64_of_file_size by assumption.
    apply ratio_negative_of_quotient. now apply quotient_above_one. }
  assert (Hlt' : ByteSize si < ByteSize so) by (rewrite !ByteSize_file_size by assumption; lia).
  unfold os_Remove in Hrm.
  on_path P cfg j w Hfresh;
    match goal with H : files _ !! _ = Some _ |- _ => rewrite H in Hrm end;
    (case_decide; [|]; try contradiction); try discriminate;
    cbn; rewrite !ByteSize_file_size by assumption; repeat split; try assumption.
  apply lookup_delete_eq.
Qed.

Lemma oversized_ratio_negative_witness :
  let w := Sample.disk [("/photos/a.png", 20000)] in
  let x := execute (Sample.unix (Some "/work")) Sample.defaults (newJob "/photos/a.png" 150) w in
  outcome x = Next tt /\
  err (result x) = None /\
  exists_ (result x) = false /\
  compression (result x) = compression_ratio 30000 20000 /\
  (compression (result x) <? 0)%float = true /\
  files (world_after x) !! "/photos/a.webp" = None.
Proof.
  apply (oversized_ratio_negative (Sample.unix (Some "/work")) Sample.defaults
           (newJob "/photos/a.png" 150) (Sample.disk [("/photos/a.png", 20000)])
           "/photos/a.png" 20000
           (Sample.disk [("/photos/a.png", 20000); ("/photos/a.webp", 30000)]) 30000).
  - reflexivity.
  - unfold encoded, reaches_encode, reaches_sizing, ext_within_base, gate_open.
    vm_compute. repeat split; try lia; try discriminate. right; reflexivity.
  - lia.
  - lia.
  - lia.
  - vm_compute. reflexivity.
Defined.

(** ** The ratio of an output that is kept *)

(** The second half of [binary_round_aux] when the rounded mantissa still
    has 53 bits. *)
Lemma binary_round_aux_no_carry (s : bool) (mx ex : Z) (lx : location)
    (mrs' : shr_record) (e' : Z) (q1 : positive) :
  shr_fexp prec emax mx ex lx = (mrs', e') ->
  round_nearest_even (shr_m mrs') (loc_of_shr_record mrs') = Zpos q1 ->
  4503599627370496 <= Zpos q1 < 9007199254740992 ->
  -1074 <= e' <= 971 ->
  binary_round_aux prec emax s mx ex lx = S754_finite s q1 e'.
Proof.
  intros H1 H2 Hq He. unfold binary_round_aux. rewrite H1, H2.
  rewrite shr_fexp_53 by lia. cbn [shr_record_of_loc shr_m]. unfold prec, emax.
  destruct (Z.leb_spec e' (1024 - 53)); [reflexivity | lia].
Qed.

Lemma new_location_exact (n : Z) : new_location n 0 = loc_Exact.
Proof.
  unfold new_location. destruct (Z.even n); reflexivity.
Qed.

(** The quotient of two binary64 values with 53-bit mantissas, the first
    the smaller, rounds to a value below one. *)
Lemma SFdiv_below_one (M1 M2 : positive) (k1 k2 : Z) :
  4503599627370496 <= Zpos M1 < 9007199254740992 ->
  4503599627370496 <= Zpos M2 < 9007199254740992 ->
  0 <= k1 <= 52 -> 0 <= k2 <= 52 ->
  Zpos M1 * 2 ^ k2 < Zpos M2 * 2 ^ k1 ->
  exists (m : positive) (e : Z),
    SFdiv prec emax (S754_finite false M1 (- k1)) (S754_finite false M2 (- k2))
    = S754_finite false m e /\
    4503599627370496 <= Zpos m < 9007199254740992 /\ -1074 <= e <= -53.
Proof.
  intros HM1 HM2 Hk1 Hk2 Hlt.
  assert (Hp2 : 0 < 2 ^ k2) by (apply Z.pow_pos_nonneg; lia).
  assert (Hk : k2 <= k1).
  { destruct (Z.leb_spec k2 k1) as [|Hgt]; [assumption|]. exfalso.
    assert (Hs : 2 ^ k2 = 2 ^ k1 * 2 ^ (k2 - k1)).
    { rewrite <- Z.pow_add_r by lia. f_equal. lia. }
    assert (2 ^ 1 <= 2 ^ (k2 - k1)) by (apply Z.pow_le_mono_r; lia).
    assert (0 < 2 ^ k1) by (apply Z.pow_pos_nonneg; lia).
    change (2 ^ 1) with 2 in *. nia. }
  set (t := k1 - k2).
  assert (Ht : 0 <= t <= 52) by lia.
  assert (Hs : 2 ^ k1 = 2 ^ k2 * 2 ^ t).
  { rewrite <- Z.pow_add_r by lia. f_equal. lia. }
  assert (HT : Zpos M1 < Zpos M2 * 2 ^ t) by nia.
  assert (HT0 : t = 0 -> 2 ^ t = 1) by (intros ->; reflexivity).
  unfold SFdiv, SFdiv_core_binary, Zdigits2. cbv zeta.
  rewrite (digits2_unique M1 53), (digits2_unique M2 53) by (cbn; lia).
  assert (He' : Z.min (fexp prec emax (53 + - k1 - (53 + - k2))) (- k1 - - k2) = - t - 53).
  { unfold fexp, SpecFloat.emin, prec, emax. lia. }
  rewrite He'.
  replace (- k1 - - k2 - (- t - 53)) with 53 by lia.
  rewrite Z.shiftl_mul_pow2 by lia. change (2 ^ 53) with 9007199254740992.
  pose proof (Z_div_mod (Zpos M1 * 9007199254740992) (Zpos M2) eq_refl) as Hdm.
  destruct (Z.div_eucl (Zpos M1 * 9007199254740992) (Zpos M2)) as [q r].
  destruct Hdm as [Heq Hr]. cbn [xorb].
  assert (Hq : 4503599627370496 <= q < 18014398509481984) by nia.
  destruct q as [|q|q]; try lia.
  destruct (Z.ltb_spec (Zpos q) 9007199254740992) as [Hq53 | Hq54].
  - (* a quotient of 53 bits: it is at most 2^53 - 2, so rounding keeps 53 bits *)
    assert (HM : Zpos M1 < Zpos M2) by nia.
    assert (Hq2 : Zpos q <= 9007199254740990) by nia.
    pose proof (round_nearest_even_ge (Zpos q) (new_location (Zpos M2) r)) as Hrnd.
    destruct (round_nearest_even (Zpos q) (new_location (Zpos M2) r))
      as [|q1|q1] eqn:Hq1; try lia.
    exists q1, (- t - 53). split; [|lia].
    apply (binary_round_aux_no_carry false (Zpos q) (- t - 53) _
             (shr_record_of_loc (Zpos q) (new_location (Zpos M2) r))).
    + apply shr_fexp_53; lia.
    + rewrite shr_record_of_loc_m, loc_of_shr_record_of_loc. exact Hq1.
    + lia.
    + lia.
  - (* a quotient of 54 bits: the exponents differ *)
    assert (HM : Zpos M2 <= Zpos M1) by nia.
    assert (Ht1 : 1 <= t) by (destruct (Z.eq_dec t 0) as [E|]; [rewrite (HT0 E) in HT|]; lia).
    set (mrs := shr_1 (shr_record_of_loc (Zpos q) (new_location (Zpos M2) r))).
    assert (Hm : shr_m mrs = Zpos q / 2).
    { unfold mrs. rewrite shr_1_m; rewrite shr_record_of_loc_m; lia. }
    pose proof (round_nearest_even_ge (shr_m mrs) (loc_of_shr_record mrs)) as Hrnd.
    assert (Hhalf : 4503599627370496 <= Zpos q / 2 < 9007199254740992).
    { split; [apply Z.div_le_lower_bound | apply Z.div_lt_upper_bound]; lia. }
    assert (Hround : round_nearest_even (shr_m mrs) (loc_of_shr_record mrs)
                     < 9007199254740992).
    { destruct (Z.eq_dec (Zpos q) 18014398509481982) as [Eq | Hne].
      - assert (r = 0) by nia. subst r.
        unfold mrs. rewrite new_location_exact. inversion Eq as [Eq']. reflexivity.
      - assert (Zpos q <= 18014398509481981) by nia.
        assert (Zpos q / 2 < 9007199254740991) by (apply Z.div_lt_upper_bound; lia).
        lia. }
    destruct (round_nearest_even (shr_m mrs) (loc_of_shr_record mrs)) as [|q1|q1] eqn:Hq1;
      try lia.
    exists q1, (- t - 53 + 1). split; [|lia].
    apply (binary_round_aux_no_carry false (Zpos q) (- t - 53) _ mrs).
    + apply shr_fexp_54; lia.
    + exact Hq1.
    + lia.
    + lia.
Qed.

(** [1 - x] is positive and not zero when the finite [x] is below one. *)
Lemma SFsub_one_below (m : positive) (e : Z) :
  4503599627370496 <= Zpos m < 9007199254740992 -> -1074 <= e <= -53 ->
  signed_nonzero false
    (SFsub prec emax (S754_finite false 4503599627370496 (-52)) (S754_finite false m e)).
Proof.
  intros Hm He. unfold SFsub.
  assert (Hmin : Z.min (-52) e = e) by lia. rewrite Hmin.
  assert (Hsame : shl_align m e e = (m, e)).
  { unfold shl_align. now rewrite Z.sub_diag. }
  rewrite Hsame. cbn [fst cond_Zopp].
  assert (Hbig : 9007199254740992 <= Zpos (fst (shl_align 4503599627370496 (-52) e))).
  { unfold shl_align. destruct (e - -52) as [|d|d] eqn:Hd; cbn [fst]; try lia.
    rewrite iter_xO_pow.
    assert (2 <= 2 ^ Zpos d).
    { change 2 with (2 ^ 1) at 1. apply Z.pow_le_mono_r; lia. }
    lia. }
  destruct (Zpos (fst (shl_align 4503599627370496 (-52) e)) - Zpos m) as [|p|p] eqn:Hp;
    try lia.
  cbn [binary_normalize]. apply binary_round_nonzero.
  pose proof (Pos2Z.is_pos (digits2_pos p)). lia.
Qed.

(** A positive, non-zero number times 100 is positive and not zero. *)
Lemma SFmul_hundred_positive (x : spec_float) :
  valid_binary x = true -> signed_nonzero false x ->
  signed_nonzero false (SFmul prec emax x (S754_finite false 7036874417766400 (-46))).
Proof.
  intros Hv [-> | (m & e & ->)]; [left; reflexivity|].
  cbn [valid_binary] in Hv. apply bounded_exponent in Hv as [Hrange _].
  cbn [SFmul xorb]. apply binary_round_aux_nonzero.
  pose proof (digits2_bounds (m * 7036874417766400)) as [_ Hhi].
  rewrite Pos2Z.inj_mul in Hhi.
  assert (Hd : 52 < Zpos (digits2_pos (m * 7036874417766400))).
  { apply (Z.pow_lt_mono_r_iff 2); [lia | lia |].
    eapply Z.le_lt_trans; [|exact Hhi]. change (2 ^ 52) with 4503599627370496. lia. }
  lia.
Qed.

Lemma signed_nonzero_positive (x : spec_float) :
  signed_nonzero false x ->
  SFltb (S754_zero false) x = true /\ SFltb x (S754_zero false) = false.
Proof. intros [-> | (m & e & ->)]; split; reflexivity. Qed.

(** In binary64: if [q] is finite, positive and below one then
    [(1 - q) * 100] is above zero. *)
Lemma ratio_positive_of_quotient (q : float) (m : positive) (e : Z) :
  Prim2SF q = S754_finite false m e ->
  4503599627370496 <= Zpos m < 9007199254740992 -> -1074 <= e <= -53 ->
  (0 <? (1 - q) * 100)%float = true /\ ((1 - q) * 100 <? 0)%float = false.
Proof.
  intros Hq Hm He.
  rewrite !FloatAxioms.ltb_spec, FloatAxioms.mul_spec.
  change (Prim2SF 100) with (S754_finite false 7036874417766400 (-46)).
  change (Prim2SF 0) with (S754_zero false).
  pose proof (Prim2SF_valid (1 - q)) as Hv1.
  rewrite FloatAxioms.sub_spec in *.
  change (Prim2SF 1) with (S754_finite false 4503599627370496 (-52)) in *.
  rewrite Hq in *.
  apply signed_nonzero_positive.
  apply SFmul_hundred_positive; [exact Hv1|].
  apply SFsub_one_below; assumption.
Qed.

(** For sizes below [2^53], the smaller divided by the larger is a finite
    binary64 value below one. *)
Lemma quotient_below_one (si so : Z) :
  0 < so -> so < si -> si < 9007199254740992 ->
  exists (m : positive) (e : Z),
    Prim2SF (PrimFloat.of_uint63 (Uint63.of_Z so) / PrimFloat.of_uint63 (Uint63.of_Z si))
    = S754_finite false m e /\
    4503599627370496 <= Zpos m < 9007199254740992 /\ -1074 <= e <= -53.
Proof.
  intros Hso Hlt Hsi. rewrite FloatAxioms.div_spec.
  destruct (Prim2SF_of_size so) as (M1 & k1 & -> & Hk1 & HM1 & Hb1); [lia|].
  destruct (Prim2SF_of_size si) as (M2 & k2 & -> & Hk2 & HM2 & Hb2); [lia|].
  unfold SF64div. apply SFdiv_below_one; try assumption.
  rewrite HM1, HM2.
  assert (0 < 2 ^ k1) by (apply Z.pow_pos_nonneg; lia).
  assert (0 < 2 ^ k2) by (apply Z.pow_pos_nonneg; lia).
  nia.
Qed.

(** A binary64 value divided by itself is one. *)
Lemma SFdiv_self (M : positive) (k : Z) :
  4503599627370496 <= Zpos M < 9007199254740992 -> 0 <= k <= 52 ->
  SFdiv prec emax (S754_finite false M (- k)) (S754_finite false M (- k))
  = S754_finite false 4503599627370496 (-52).
Proof.
  intros HM Hk.
  unfold SFdiv, SFdiv_core_binary, Zdigits2. cbv zeta.
  rewrite (digits2_unique M 53) by (cbn; lia).
  assert (He' : Z.min (fexp prec emax (53 + - k - (53 + - k))) (- k - - k) = - 53).
  { unfold fexp, SpecFloat.emin, prec, emax. lia. }
  rewrite He'.
  replace (- k - - k - - 53) with 53 by lia.
  rewrite Z.shiftl_mul_pow2 by lia. change (2 ^ 53) with 9007199254740992.
  pose proof (Z_div_mod (Zpos M * 9007199254740992) (Zpos M) eq_refl) as Hdm.
  destruct (Z.div_eucl (Zpos M * 9007199254740992) (Zpos M)) as [q r].
  destruct Hdm as [Heq Hr]. cbn [xorb].
  assert (q = 9007199254740992) by nia. assert (r = 0) by nia. subst q r.
  rewrite new_location_exact. vm_compute. reflexivity.
Qed.

(** The ratio of two equal sizes is zero; of nothing to something, 100. *)
Lemma ratio_of_equal (n : Z) :
  0 < n < 9007199254740992 -> compression_ratio n n = 0%float.
Proof.
  intros Hn. unfold compression_ratio, float64_of_uint64.
  destruct (Z.ltb_spec n (2 ^ 63)); [|lia].
  assert (Hq : (PrimFloat.of_uint63 (Uint63.of_Z n) / PrimFloat.of_uint63 (Uint63.of_Z n))%float
               = 1%float).
  { rewrite <- (SF2Prim_Prim2SF (_ / _)), FloatAxioms.div_spec.
    destruct (Prim2SF_of_size n Hn) as (M & k & -> & Hk & _ & HM).
    unfold SF64div. rewrite SFdiv_self by assumption. reflexivity. }
  rewrite Hq. reflexivity.
Qed.

Lemma ratio_of_nothing (n : Z) :
  0 < n < 9007199254740992 -> compression_ratio 0 n = 100%float.
Proof.
  intros Hn. unfold compression_ratio, float64_of_uint64.
  destruct (Z.ltb_spec n (2 ^ 63)); [|lia].
  change (0 <? 2 ^ 63) with true. cbv iota.
  assert (Hq : (PrimFloat.of_uint63 (Uint63.of_Z 0) / PrimFloat.of_uint63 (Uint63.of_Z n))%float
               = 0%float).
  { rewrite <- (SF2Prim_Prim2SF (_ / _)), FloatAxioms.div_spec.
    destruct (Prim2SF_of_size n Hn) as (M & k & -> & Hk & _ & HM).
    reflexivity. }
  rewrite Hq. reflexivity.
Qed.

(** X21.  The sign of the ratio of an output that is kept.  When the encoder
    has succeeded and the output is not larger than the input, with sizes
    below [2^53], [execute] returns with a nil error, leaves the world as
    the encoder left it, and the ratio of the two measured sizes is never
    negative: it is above zero when the output is smaller, zero when the
    sizes are equal, and 100 when the output is empty. *)
Theorem kept_output_ratio_sign P cfg j w a si w1 so :
  resCh j = [] ->
  encoded P cfg j w a si w1 so ->
  0 <= so -> so <= si -> 0 < si -> si < 2 ^ 53 ->
  outcome (execute P cfg j w) = Next tt /\
  err (result (execute P cfg j w)) = None /\
  world_after (execute P cfg j w) = w1 /\
  compression (result (execute P cfg j w)) = compression_ratio so si /\
  (compression (result (execute P cfg j w)) <? 0)%float = false /\
  (so < si -> (0 <? compression (result (execute P cfg j w)))%float = true) /\
  (so = si -> compression (result (execute P cfg j w)) = 0%float) /\
  (so = 0 -> compression (result (execute P cfg j w)) = 100%float).
Proof.
  intros Hfresh Henc Hso Hle Hpos Hsi.
  change (2 ^ 53) with 9007199254740992 in Hsi.
  assert (Hfsi : file_size si) by (unfold file_size; change (2 ^ 63) with 9223372036854775808; lia).
  assert (Hfso : file_size so) by (unfold file_size; change (2 ^ 63) with 9223372036854775808; lia).
  assert (Hsign : (compression_ratio so si <? 0)%float = false /\
                  (so < si -> (0 <? compression_ratio so si)%float = true) /\
                  (so = si -> compression_ratio so si = 0%float) /\
                  (so = 0 -> compression_ratio so si = 100%float)).
  { destruct (Z.eq_dec so 0) as [-> | Hnz].
    - rewrite ratio_of_nothing by lia.
      split; [reflexivity|]. split; [reflexivity|]. split; [lia | reflexivity].
    - destruct (Z.eq_dec so si) as [-> | Hne].
      + rewrite ratio_of_equal by lia.
        split; [reflexivity|]. split; [lia|]. split; [reflexivity | lia].
      + destruct (quotient_below_one si so) as (m & e & Hq & Hm & He); try lia.
        destruct (ratio_positive_of_quotient _ m e Hq Hm He) as [Hgt Hnn].
        unfold compression_ratio. rewrite !float64_of_file_size by assumption.
        split; [exact Hnn|]. split; [intros _; exact Hgt|]. split; intros; lia. }
  assert (Hle' : ByteSize so <= ByteSize si) by (rewrite !ByteSize_file_size by assumption; lia).
  on_path P cfg j w Hfresh; cbn; rewrite !ByteSize_file_size by assumption;
    repeat split; try reflexivity; assumption.
Qed.

Lemma kept_output_ratio_sign_witness :
  let w := Sample.disk [("/photos/a.png", 51200)] in
  let x := execute (Sample.unix (Some "/work")) Sample.defaults (newJob "/photos/a.png" 80) w in
  outcome x = Next tt /\
  err (result x) = None /\
  compression (result x) = compression_ratio 40960 51200 /\
  (compression (result x) <? 0)%float = false /\
  (0 <? compression (result x))%float = true.
Proof.
  destruct (kept_output_ratio_sign (Sample.unix (Some "/work")) Sample.defaults
              (newJob "/photos/a.png" 80) (Sample.disk [("/photos/a.png", 51200)])
              "/photos/a.png" 51200
              (Sample.disk [("/photos/a.png", 51200); ("/photos/a.webp", 40960)]) 40960)
    as (Hout & Herr & _ & Hc & Hnn & Hgt & _).
  - reflexivity.
  - unfold encoded, reaches_encode, reaches_sizing, ext_within_base, gate_open.
    vm_compute. repeat split; try lia; try discriminate. right; reflexivity.
  - lia.
  - lia.
  - lia.
  - lia.
  - split; [exact Hout|]. split; [exact Herr|]. split; [exact Hc|].
    split; [exact Hnn|]. apply Hgt. lia.
Defined.
